(** * indirect<T>: a deep-copying owning wrapper (src/indirect.h)

    A shallow embedding of the header: the free store of control blocks
    and the wrappers that own them are an explicit state, every member
    function is a computation on that state, and exceptions and undefined
    behaviour are outcomes of a computation. *)

From stdpp Require Import gmap strings list fin_maps.

Local Open Scope Z_scope.

(** ** Objects, classes and layout *)

(** A class is named by its C++ name.  The object representation of a
    value is its memory image: byte offset inside the object -> the int
    stored there (only int members occur; the vptr slots are not
    recorded). *)
Abbreviation cid := string (only parsing).
Abbreviation obj := (gmap Z Z) (only parsing).
Abbreviation addr := Z (only parsing).

(** What the header needs to know about the stored types.  The header is
    a template; these are the operations it instantiates on T.  A
    constructor that throws has no effect on the state; move constructors
    do not throw; [operator new] does not fail. *)
Record class_table := ClassTable {
  (** [T(ts...)]: [None] when the constructor throws (or T has none for
      these arguments). *)
  ctor : cid → list Z → option obj;
  (** [T(T const&)]: [None] when it throws. *)
  copy_ctor : cid → obj → option obj;
  (** [T(T&&)]: the new object and the state the source is left in. *)
  move_ctor : cid → obj → obj * obj;
  (** [base_off D B]: what a static_cast from pointer-to-D to pointer-to-B
      adds to the address, the offset of the B subobject inside a D;
      [None] when B is not a base of D; [base_off D D] is the offset 0 of
      the object in itself. *)
  base_off : cid → cid → option Z;
  (** [field_off C f]: offset of member f (own or inherited) from the
      start of a C subobject. *)
  field_off : cid → string → option Z;
  (** offset of the member [t] inside [direct_control_block<T>] (the
      block's vptr comes first). *)
  t_offset : Z;
  t_offset_nonneg : 0 ≤ t_offset
}.

(** [direct_control_block<T>]: the template argument and the member [t]. *)
Record block := Block { blk_cls : cid; blk_t : obj }.

(** [indirect<T>::data] and [indirect<T>].  A [std::unique_ptr] is the
    address it owns, [None] when null; a raw pointer is a number, 0 when
    null. *)
Record data := Data { ptr : addr; cb : option addr }.
Record indirect := Indirect { view : cid; m : data }.

(** The free store and the wrapper objects of the client, by name. *)
Record state := State { heap : gmap Z block; vars : gmap nat indirect }.

(** [operator new]: any deterministic allocator that returns a non-null
    address which is not live. *)
Record allocator := Allocator {
  alloc : gset Z → addr;
  alloc_fresh : ∀ live, alloc live ∉ live;
  alloc_pos : ∀ live, 0 < alloc live
}.

(** ** Computations *)

Inductive exn := bad_indirect_cast | payload_exception.

Inductive outcome (A : Type) :=
  | Ret (a : A)
  | Throw (e : exn)
  | Undefined.
Arguments Ret {A} a.
Arguments Throw {A} e.
Arguments Undefined {A}.

(** An exception does not roll the state back: the state at the throw is
    part of the result. *)
Definition M (A : Type) : Type := state → outcome A * state.

Definition ret {A} (a : A) : M A := λ s, (Ret a, s).
Definition throw {A} (e : exn) : M A := λ s, (Throw e, s).
Definition undefined {A} : M A := λ s, (Undefined, s).

Definition bind {A B} (c : M A) (k : A → M B) : M B := λ s,
  match c s with
  | (Ret a, s') => k a s'
  | (Throw e, s') => (Throw e, s')
  | (Undefined, s') => (Undefined, s')
  end.

#[global] Instance M_ret : MRet M := @ret.
#[global] Instance M_bind : MBind M := λ A B k c, bind c k.

Definition get_heap : M (gmap Z block) := λ s, (Ret (heap s), s).
Definition put_heap (h : gmap Z block) : M unit := λ s, (Ret tt, State h (vars s)).
Definition get_vars : M (gmap nat indirect) := λ s, (Ret (vars s), s).
Definition put_vars (v : gmap nat indirect) : M unit := λ s, (Ret tt, State (heap s) v).

(** Dereferencing a [unique_ptr] ([cb->...]): null is undefined behaviour. *)
Definition unique_deref (p : option addr) : M addr :=
  match p with Some a => ret a | None => undefined end.

(** The block a live control-block address designates. *)
Definition get_block (a : addr) : M block :=
  h ← get_heap;
  match h !! a with Some b => ret b | None => undefined end.

(** A reference to a wrapper object of the client. *)
Definition get_var (w : nat) : M indirect :=
  v ← get_vars;
  match v !! w with Some i => ret i | None => undefined end.

Section Indirect.
Context (al : allocator) (ct : class_table).

(** *** detail::direct_control_block<T> *)

(** [std::make_unique<direct_control_block<T>>] once the member [t] has
    been constructed as [v]. *)
Definition make_unique (T : cid) (v : obj) : M addr :=
  h ← get_heap;
  let a := alloc al (dom h) in
  put_heap (<[a := Block T v]> h);;
  ret a.

(** [std::make_unique<dcb_t<T>>(ts...)]: when T's constructor throws no
    block is created. *)
Definition make_dcb (T : cid) (ts : list Z) : M addr :=
  match ctor ct T ts with
  | Some v => make_unique T v
  | None => throw payload_exception
  end.

(** [std::make_unique<dcb_t<T>>(x)] for an argument x of class T holding
    [v] that cannot be moved from (the const member [t] in [copy()], a
    const rvalue in the constructor and the assignment from a value): the
    member [t] is copy-constructed. *)
Definition make_dcb_copy (T : cid) (v : obj) : M addr :=
  match copy_ctor ct T v with
  | Some v' => make_unique T v'
  | None => throw payload_exception
  end.

(** [copy() const]: [make_unique<direct_control_block>(t)]. *)
Definition cb_copy (a : addr) : M addr :=
  b ← get_block a;
  make_dcb_copy (blk_cls b) (blk_t b).

(** [move()]: [make_unique<direct_control_block>(std::move(t))].  The
    new block's member is built by the move constructor of the stored
    class from the member [t] of this block, which stays where it is in
    the state the move constructor leaves it in.  The move constructor is
    taken to return ([move_ctor] is total, as for the classes of the test
    suites, whose move constructors do not throw).  A move constructor
    that throws, possibly after it has changed [t], is outside this
    development: the properties of requests that throw are stated for
    the requests that do not move and for [bad_indirect_cast]. *)
Definition cb_move (a : addr) : M addr :=
  b ← get_block a;
  let '(v, rest) := move_ctor ct (blk_cls b) (blk_t b) in
  h ← get_heap;
  put_heap (<[a := Block (blk_cls b) rest]> h);;
  make_unique (blk_cls b) v.

(** [ptr()]: [&t]. *)
Definition cb_ptr (a : addr) : M addr :=
  _ ← get_block a;
  ret (a + t_offset ct).

(** [~unique_ptr] / the release of the old pointee in
    [unique_ptr::operator=]: deleting null does nothing. *)
Definition unique_reset (p : option addr) : M unit :=
  match p with
  | Some a => h ← get_heap; put_heap (delete a h)
  | None => ret tt
  end.

(** *** Raw pointers *)

(** static_cast from pointer-to-void to pointer-to-T: the address is
    taken as it is, whatever T. *)
Definition static_cast_from_void (T : cid) (p : addr) : addr := p.

(** The object a pointer designates: null, or an address that is not the
    member [t] of a live block, is undefined behaviour. *)
Definition pointee (p : addr) : M block :=
  if decide (p = 0) then undefined else get_block (p - t_offset ct).

(** dynamic_cast to pointer-to-U of a pointer-to-T.  Null stays null.
    When U is T or a base of T ([base_off T U] is defined, a class being
    at offset 0 in itself) the cast is the compile-time conversion to the
    base subobject: nothing is looked up and the result is not null.
    Otherwise the run-time type decides: the object found at the address
    is of class D and the address is taken as that of its T subobject, so
    the cast yields the U subobject when D has its T subobject at that
    very address (offset 0 from the object the address designates) and
    has a U subobject, and null in every other case. *)
Definition dynamic_cast (T U : cid) (p : addr) : M addr :=
  if decide (p = 0) then ret 0
  else
    match base_off ct T U with
    | Some o => ret (p + o)
    | None =>
        b ← pointee p;
        match base_off ct (blk_cls b) T, base_off ct (blk_cls b) U with
        | Some k, Some o => if decide (k = 0) then ret (p + o) else ret 0
        | _, _ => ret 0
        end
    end.

(** Reading the int member f through a pointer-to-T: the word at
    [p + field_off T f]. *)
Definition read_member (T : cid) (p : addr) (f : string) : M Z :=
  b ← pointee p;
  match field_off ct T f with
  | Some o =>
      match blk_t b !! o with Some x => ret x | None => undefined end
  | None => undefined
  end.

(** A client's write through the pointer (a call of a mutating member
    function): the pointee becomes [g] of what it was. *)
Definition modify_at (p : addr) (g : obj → obj) : M unit :=
  b ← pointee p;
  h ← get_heap;
  put_heap (<[p - t_offset ct := Block (blk_cls b) (g (blk_t b))]> h).

(** *** indirect<T>::data *)

Definition set_ptr (w : nat) (p : addr) : M unit :=
  i ← get_var w;
  v ← get_vars;
  put_vars (<[w := Indirect (view i) (Data p (cb (m i)))]> v).

Definition set_cb (w : nat) (c : option addr) : M unit :=
  i ← get_var w;
  v ← get_vars;
  put_vars (<[w := Indirect (view i) (Data (ptr (m i)) c)]> v).

(** [data(unique_ptr&& cb_)]: ptr from [cb_->ptr()], then cb takes the
    block over. *)
Definition data_init (T : cid) (cb_ : option addr) : M data :=
  a ← unique_deref cb_;
  p ← cb_ptr a;
  ret (Data (static_cast_from_void T p) (Some a)).

(** [data::operator=(unique_ptr&& cb_)] on the wrapper [this]: the
    assignment to [cb] releases the block held before. *)
Definition data_assign (this : nat) (cb_ : option addr) : M unit :=
  i ← get_var this;
  a ← unique_deref cb_;
  p ← cb_ptr a;
  set_ptr this (static_cast_from_void (view i) p);;
  set_cb this (Some a);;
  unique_reset (cb (m i)).

(** *** indirect<T> *)

(** A wrapper object comes into existence under a name not in use. *)
Definition new_var (i : indirect) : M nat :=
  v ← get_vars;
  let w := fresh (dom v) in
  put_vars (<[w := i]> v);;
  ret w.

(** The private [indirect(unique_ptr&& cb)]. *)
Definition indirect_from_cb (T : cid) (cb_ : option addr) : M nat :=
  d ← data_init T cb_;
  new_var (Indirect T d).

(** [indirect()]. *)
Definition indirect_default (T : cid) : M nat :=
  a ← make_dcb T [];
  indirect_from_cb T (Some a).

(** [indirect(in_place_t, Ts&&... ts)]. *)
Definition indirect_in_place (T : cid) (ts : list Z) : M nat :=
  a ← make_dcb T ts;
  indirect_from_cb T (Some a).

(** The expressions [other.m.cb->copy()] and [other.m.cb->move()]. *)
Definition other_cb_copy (other : nat) : M addr :=
  o ← get_var other;
  a ← unique_deref (cb (m o));
  cb_copy a.

Definition other_cb_move (other : nat) : M addr :=
  o ← get_var other;
  a ← unique_deref (cb (m o));
  cb_move a.

(** [indirect(indirect<U> const& other)], for T a base of U. *)
Definition indirect_conv_copy (T : cid) (other : nat) : M nat :=
  n ← other_cb_copy other;
  indirect_from_cb T (Some n).

(** [indirect(indirect<U>&& other)], for T a base of U. *)
Definition indirect_conv_move (T : cid) (other : nat) : M nat :=
  n ← other_cb_move other;
  indirect_from_cb T (Some n).

(** [indirect(indirect const& other)]: the same body at U = T. *)
Definition indirect_copy (other : nat) : M nat :=
  o ← get_var other;
  indirect_conv_copy (view o) other.

(** [indirect(indirect&& other)]. *)
Definition indirect_move (other : nat) : M nat :=
  o ← get_var other;
  indirect_conv_move (view o) other.

(** [operator=(indirect const& other)] and
    [operator=(indirect<U> const& other)]. *)
Definition copy_assign (this other : nat) : M unit :=
  _ ← get_var this;
  n ← other_cb_copy other;
  data_assign this (Some n).

(** [operator=(indirect&& other)] and [operator=(indirect<U>&& other)]. *)
Definition move_assign (this other : nat) : M unit :=
  _ ← get_var this;
  n ← other_cb_move other;
  data_assign this (Some n).

(** [indirect(U&& other)] from a const rvalue of class U holding [v]
    (for an lvalue U is deduced as a reference type, [is_base_of<T, U>]
    is false and the constructor does not take part in overload
    resolution): [std::forward<U>(other)] is a const rvalue and the
    member [t] is copy-constructed from it. *)
Definition indirect_from_value (T U : cid) (v : obj) : M nat :=
  a ← make_dcb_copy U v;
  indirect_from_cb T (Some a).

(** [indirect(U&& other)] from a temporary: [t] is move-constructed and
    the temporary dies. *)
Definition indirect_from_rvalue (T U : cid) (v : obj) : M nat :=
  a ← make_unique U (fst (move_ctor ct U v));
  indirect_from_cb T (Some a).

(** [operator=(U&& other)], from a const rvalue (which is copied) and
    from a temporary (which is moved from); as for the constructor, an
    lvalue does not select this operator. *)
Definition assign_value (this : nat) (U : cid) (v : obj) : M unit :=
  _ ← get_var this;
  a ← make_dcb_copy U v;
  data_assign this (Some a).

Definition assign_rvalue (this : nat) (U : cid) (v : obj) : M unit :=
  _ ← get_var this;
  a ← make_unique U (fst (move_ctor ct U v));
  data_assign this (Some a).

(** [~indirect()]: the wrapper object ends and its unique_ptr releases
    the block. *)
Definition destroy (this : nat) : M unit :=
  i ← get_var this;
  v ← get_vars;
  put_vars (delete this v);;
  unique_reset (cb (m i)).

(** [swap(indirect& other) noexcept]: the two std::swap calls, one
    member at a time. *)
Definition swap (this other : nat) : M unit :=
  a ← get_var this;
  b ← get_var other;
  set_ptr this (ptr (m b));;
  set_ptr other (ptr (m a));;
  set_cb this (cb (m b));;
  set_cb other (cb (m a)).

(** [operator->]: returns [m.ptr]. *)
Definition arrow (this : nat) : M addr :=
  i ← get_var this;
  ret (ptr (m i)).

(** [operator*]: the object [*m.ptr]. *)
Definition star (this : nat) : M obj :=
  i ← get_var this;
  b ← pointee (ptr (m i));
  ret (blk_t b).

(** [this->f] for an int member f of the view type. *)
Definition member (this : nat) (f : string) : M Z :=
  i ← get_var this;
  read_member (view i) (ptr (m i)) f.

(** A mutating call through [operator->]. *)
Definition mutate (this : nat) (g : obj → obj) : M unit :=
  p ← arrow this;
  modify_at p g.

(** [try_static_cast<U>() const]: the cast is evaluated and dropped. *)
Definition try_static_cast (U : cid) (this : nat) : M unit :=
  _ ← get_var this;
  ret tt.

(** [try_dynamic_cast<U>() const]:
    [if (!dynamic_cast<U*>(m.ptr)) throw bad_indirect_cast();], where
    [m.ptr] is a pointer to the view type. *)
Definition try_dynamic_cast (U : cid) (this : nat) : M unit :=
  i ← get_var this;
  q ← dynamic_cast (view i) U (ptr (m i));
  if decide (q = 0) then throw bad_indirect_cast else ret tt.

(** *** Free functions *)

(** [make_indirect<T>(ts...)]. *)
Definition make_indirect (T : cid) (ts : list Z) : M nat :=
  indirect_in_place T ts.

(** [static_indirect_cast<T>(indirect<U> const& i)]. *)
Definition static_indirect_cast (T : cid) (i : nat) : M nat :=
  try_static_cast T i;;
  n ← other_cb_copy i;
  indirect_from_cb T (Some n).

(** [static_indirect_cast<T>(indirect<U>&& i)]. *)
Definition static_indirect_cast_move (T : cid) (i : nat) : M nat :=
  try_static_cast T i;;
  n ← other_cb_move i;
  indirect_from_cb T (Some n).

(** [dynamic_indirect_cast<T>(indirect<U> const& i)]. *)
Definition dynamic_indirect_cast (T : cid) (i : nat) : M nat :=
  try_dynamic_cast T i;;
  static_indirect_cast T i.

(** [dynamic_indirect_cast<T>(indirect<U>&& i)]. *)
Definition dynamic_indirect_cast_move (T : cid) (i : nat) : M nat :=
  try_dynamic_cast T i;;
  static_indirect_cast_move T i.

(** The free function [swap(indirect<T>& i1, indirect<T>& i2)]. *)
Definition swap_indirect (i1 i2 : nat) : M unit := swap i1 i2.

(** Modelled from the spec: the has-value query, which the header does
    not declare: true iff the view pointer is non-null. *)
Definition has_value (this : nat) : M bool :=
  i ← get_var this;
  ret (bool_decide (ptr (m i) ≠ 0)).

End Indirect.

(** ** Observing a state *)

Section Observations.
Context (ct : class_table).

(** The control block a wrapper owns, the block's contents, and the
    wrapper's view pointer. *)
Definition block_of (s : state) (w : nat) : option Z :=
  i ← vars s !! w; cb (m i).

Definition held (s : state) (w : nat) : option block :=
  a ← block_of s w; heap s !! a.

Definition view_ptr (s : state) (w : nat) : option Z :=
  i ← vars s !! w; Some (ptr (m i)).

(** Where the B subobject of the object held by [w] lies, and the value
    of the member f of that subobject. *)
Definition subobject_addr (s : state) (w : nat) (B : string) : option Z :=
  a ← block_of s w;
  b ← heap s !! a;
  o ← base_off ct (blk_cls b) B;
  Some (a + t_offset ct + o).

Definition subobject_member (s : state) (w : nat) (B f : string) : option Z :=
  b ← held s w;
  o ← base_off ct (blk_cls b) B;
  fo ← field_off ct B f;
  blk_t b !! (o + fo).

(** Whether the [dynamic_cast] to pointer-to-T in [try_dynamic_cast]
    yields a pointer, for a wrapper of view type V that holds an object
    of class D: either T is V or a base of V, which the compiler decides,
    or the view pointer, which is the address of the stored object, is
    the address of D's V subobject and D has a T subobject, which the
    run-time check finds. *)
Definition cast_passes (V D T : string) : Prop :=
  is_Some (base_off ct V T)
  ∨ (base_off ct D V = Some 0 ∧ is_Some (base_off ct D T)).

#[global] Instance cast_passes_dec V D T : Decision (cast_passes V D T).
Proof. unfold cast_passes. apply _. Defined.

(** What [unique_reset] leaves of the free store. *)
Definition release (p : option Z) (h : gmap Z block) : gmap Z block :=
  match p with Some a => delete a h | None => h end.

(** Well-formed states: every wrapper owns a live block and points at
    that block's member [t]; no block has two owners; no block sits at
    the null address. *)
Definition wf (s : state) : Prop :=
  map_Forall (λ _ i, cb (m i) = Some (ptr (m i) - t_offset ct)
                     ∧ is_Some (heap s !! (ptr (m i) - t_offset ct))) (vars s)
  ∧ map_Forall (λ w1 i1,
      map_Forall (λ w2 i2, cb (m i1) = cb (m i2) → w1 = w2) (vars s)) (vars s)
  ∧ map_Forall (λ a _, 0 < a) (heap s).

#[global] Instance wf_dec s : Decision (wf s).
Proof. unfold wf. apply _. Defined.

(** An empty wrapper, as the specification describes it: the wrapper
    exists but owns no block, the has-value query answers false and
    [operator*] has no object to yield. *)
Definition is_empty (s : state) (w : nat) : Prop :=
  is_Some (vars s !! w)
  ∧ block_of s w = None
  ∧ has_value w s = (Ret false, s)
  ∧ (star ct w s).1 = Undefined.

(** [holds_object s w B D v]: the wrapper w is a view of type B that
    owns an object of class D with value v: its view pointer is the
    address of the member [t] of its own block and [operator*] yields
    v. *)
Definition holds_object (s : state) (w : nat) (B D : string)
    (v : gmap Z Z) : Prop :=
  view <$> vars s !! w = Some B
  ∧ held s w = Some (Block D v)
  ∧ (∃ n, block_of s w = Some n ∧ view_ptr s w = Some (n + t_offset ct))
  ∧ star ct w s = (Ret v, s).

(** [reads_own_members s w B]: every member of B read through
    [operator->] of the wrapper w is that member of the B subobject of
    the object w holds. *)
Definition reads_own_members (s : state) (w : nat) (B : string) : Prop :=
  ∀ f, member ct w f s
       = (match subobject_member s w B f with
          | Some x => Ret x
          | None => Undefined
          end, s).

End Observations.

(** ** What is stated about the operations *)

(** The public interface, as requests of a client. *)
Inductive op :=
  | Default (T : string)
  | InPlace (T : string) (ts : list Z)
  | MakeIndirect (T : string) (ts : list Z)
  | Copy (other : nat)
  | Move (other : nat)
  | ConvCopy (T : string) (other : nat)
  | ConvMove (T : string) (other : nat)
  | CopyAssign (this other : nat)
  | MoveAssign (this other : nat)
  | FromValue (T U : string) (v : gmap Z Z)
  | FromRvalue (T U : string) (v : gmap Z Z)
  | AssignValue (this : nat) (U : string) (v : gmap Z Z)
  | AssignRvalue (this : nat) (U : string) (v : gmap Z Z)
  | Swap (this other : nat)
  | Arrow (this : nat)
  | Star (this : nat)
  | Member (this : nat) (f : string)
  | Mutate (this : nat) (g : gmap Z Z → gmap Z Z)
  | StaticCast (T : string) (i : nat)
  | StaticCastMove (T : string) (i : nat)
  | DynamicCast (T : string) (i : nat)
  | DynamicCastMove (T : string) (i : nat)
  | Destroy (this : nat).

Section Statements.
Context (al : allocator) (ct : class_table).

(** Computations that never change the state. *)
Definition reads {A} (c : M A) : Prop := ∀ s, (c s).2 = s.

(** From a well-formed state [p] either returns a newly allocated block
    that no wrapper owns yet, having changed at most the contents of
    live blocks, or does not return and leaves the state as it was. *)
Definition produces (p : M Z) : Prop :=
  ∀ s, wf ct s →
    match p s with
    | (Ret n, s') =>
        ∃ h b, wf ct (State h (vars s)) ∧ h !! n = None ∧ 0 < n
               ∧ s' = State (<[n := b]> h) (vars s)
    | (_, s') => s' = s
    end.

Definition keeps {A} (c : M A) : Prop := ∀ s, wf ct s → wf ct (c s).2.

(** The state a request leaves, whatever its outcome: a returned value
    is dropped, a thrown exception is caught by the client. *)
Definition exec_op (o : op) (s : state) : state :=
  match o with
  | Default T => (indirect_default al ct T s).2
  | InPlace T ts => (indirect_in_place al ct T ts s).2
  | MakeIndirect T ts => (make_indirect al ct T ts s).2
  | Copy other => (indirect_copy al ct other s).2
  | Move other => (indirect_move al ct other s).2
  | ConvCopy T other => (indirect_conv_copy al ct T other s).2
  | ConvMove T other => (indirect_conv_move al ct T other s).2
  | CopyAssign this other => (copy_assign al ct this other s).2
  | MoveAssign this other => (move_assign al ct this other s).2
  | FromValue T U v => (indirect_from_value al ct T U v s).2
  | FromRvalue T U v => (indirect_from_rvalue al ct T U v s).2
  | AssignValue this U v => (assign_value al ct this U v s).2
  | AssignRvalue this U v => (assign_rvalue al ct this U v s).2
  | Swap this other => (swap this other s).2
  | Arrow this => (arrow this s).2
  | Star this => (star ct this s).2
  | Member this f => (member ct this f s).2
  | Mutate this g => (mutate ct this g s).2
  | StaticCast T i => (static_indirect_cast al ct T i s).2
  | StaticCastMove T i => (static_indirect_cast_move al ct T i s).2
  | DynamicCast T i => (dynamic_indirect_cast al ct T i s).2
  | DynamicCastMove T i => (dynamic_indirect_cast_move al ct T i s).2
  | Destroy this => (destroy this s).2
  end.

(** A client's history: the requests in the order they are made. *)
Definition run (ops : list op) (s : state) : state :=
  foldl (λ s o, exec_op o s) s ops.

(** No wrapper of the state is empty: its handle and its view pointer
    are non-null, the has-value query answers true and [operator*]
    yields an object. *)
Definition no_empty_wrapper (s : state) : Prop :=
  map_Forall (λ w i,
    is_Some (cb (m i)) ∧ ptr (m i) ≠ 0
    ∧ has_value w s = (Ret true, s)
    ∧ ∃ o, star ct w s = (Ret o, s)) (vars s).

(** [exchanged s s' w1 w2]: between s and s' the two wrappers traded
    their [m] (view pointer and control block), hence what they hold;
    the free store and every other wrapper are as they were. *)
Definition exchanged (s s' : state) (w1 w2 : nat) : Prop :=
  heap s' = heap s
  ∧ m <$> vars s' !! w1 = m <$> vars s !! w2
  ∧ m <$> vars s' !! w2 = m <$> vars s !! w1
  ∧ held s' w1 = held s w2
  ∧ held s' w2 = held s w1
  ∧ ∀ w, w ≠ w1 → w ≠ w2 → vars s' !! w = vars s !! w.


(** [clone_then_release s t w D v']: the copy assignment of w to t from
    the state s first completes the clone n, a block of class D holding
    v', in a state s1 where the wrappers and every block of s are as
    they were; [data::operator=] then installs n in t and releases the
    block t owned. *)
Definition clone_then_release (s : state) (t w : nat) (D : string)
    (v' : gmap Z Z) : Prop :=
  ∃ n s1 s',
    other_cb_copy al ct w s = (Ret n, s1)
    ∧ heap s1 !! n = Some (Block D v')
    ∧ vars s1 = vars s
    ∧ (∀ x b, heap s !! x = Some b → heap s1 !! x = Some b)
    ∧ held s1 t = held s t
    ∧ data_assign ct t (Some n) s1 = (Ret tt, s')
    ∧ copy_assign al ct t w s = (Ret tt, s')
    ∧ held s' t = Some (Block D v')
    ∧ (∀ old, block_of s t = Some old → heap s' !! old = None).

(** [moved s' w w' D v a n]: after a move from w into w', w' owns the
    block n holding the value D's move constructor built, and w still
    owns its block a, which holds what the move constructor left behind;
    w is not empty: it has a value and dereferences to it. *)
Definition moved (s' : state) (w w' : nat) (D : string) (v : gmap Z Z)
    (a n : Z) : Prop :=
  block_of s' w' = Some n
  ∧ held s' w' = Some (Block D (move_ctor ct D v).1)
  ∧ block_of s' w = Some a
  ∧ held s' w = Some (Block D (move_ctor ct D v).2)
  ∧ has_value w s' = (Ret true, s')
  ∧ star ct w s' = (Ret (move_ctor ct D v).2, s').

(** What move-assigning w to itself from s comes to, when w held the
    value v of class D in the block a. *)
Definition self_move_result (s : state) (w : nat) (D : string)
    (v : gmap Z Z) (a : Z) : Prop :=
  ∃ s', move_assign al ct w w s = (Ret tt, s')
        ∧ block_of s' w = Some (alloc al (dom (heap s)))
        ∧ alloc al (dom (heap s)) ≠ a
        ∧ heap s' !! a = None
        ∧ held s' w = Some (Block D (move_ctor ct D v).1)
        ∧ has_value w s' = (Ret true, s')
        ∧ star ct w s' = (Ret (move_ctor ct D v).1, s').

(** What copy-assigning w to itself from s comes to, when w held the
    value v of class D in the block a. *)
Definition self_copy_result (s : state) (w : nat) (D : string)
    (v : gmap Z Z) (a : Z) : Prop :=
  ∃ n s1 s',
    other_cb_copy al ct w s = (Ret n, s1)
    ∧ held s1 w = Some (Block D v)
    ∧ heap s1 !! n = Some (Block D v)
    ∧ data_assign ct w (Some n) s1 = (Ret tt, s')
    ∧ copy_assign al ct w w s = (Ret tt, s')
    ∧ star ct w s' = (Ret v, s')
    ∧ block_of s' w = Some n
    ∧ n ≠ a
    ∧ heap s' !! a = None
    ∧ view_ptr s w = Some (a + t_offset ct)
    ∧ view_ptr s' w = Some (n + t_offset ct).

End Statements.

(** ** Statements about whole requests *)

(** The wrappers a request may write to, and the wrappers it refers to. *)
Definition targets (o : op) : list nat :=
  match o with
  | CopyAssign this _ | MoveAssign this _
  | AssignValue this _ _ | AssignRvalue this _ _
  | Destroy this => [this]
  | Swap this other => [this; other]
  | _ => []
  end.

Definition refs (o : op) : list nat :=
  match o with
  | Default _ | InPlace _ _ | MakeIndirect _ _
  | FromValue _ _ _ | FromRvalue _ _ _ => []
  | Copy w | Move w | ConvCopy _ w | ConvMove _ w
  | AssignValue w _ _ | AssignRvalue w _ _
  | Arrow w | Star w | Member w _ | Mutate w _
  | StaticCast _ w | StaticCastMove _ w
  | DynamicCast _ w | DynamicCastMove _ w
  | Destroy w => [w]
  | CopyAssign this other | MoveAssign this other | Swap this other =>
      [this; other]
  end.

(** The requests that take their operands by reference to const or by
    value only: constructions, copies, copying casts and accesses. *)
Definition only_adds (o : op) : bool :=
  match o with
  | Default _ | InPlace _ _ | MakeIndirect _ _
  | Copy _ | ConvCopy _ _
  | FromValue _ _ _ | FromRvalue _ _ _
  | Arrow _ | Star _ | Member _ _
  | StaticCast _ _ | DynamicCast _ _ => true
  | _ => false
  end.

(** The requests that move from a wrapper or from a temporary: they run
    the move constructor of the stored class. *)
Definition moves (o : op) : bool :=
  match o with
  | Move _ | ConvMove _ _ | MoveAssign _ _
  | FromRvalue _ _ _ | AssignRvalue _ _ _
  | StaticCastMove _ _ | DynamicCastMove _ _ => true
  | _ => false
  end.

(** The checked casts. *)
Definition is_dynamic_cast (o : op) : bool :=
  match o with
  | DynamicCast _ _ | DynamicCastMove _ _ => true
  | _ => false
  end.

(** An outcome without its value. *)
Definition forget {A} (x : outcome A) : outcome unit :=
  match x with
  | Ret _ => Ret tt
  | Throw e => Throw e
  | Undefined => Undefined
  end.

Section Requests.
Context (al : allocator) (ct : class_table).

(** How a request ends. *)
Definition op_outcome (o : op) (s : state) : outcome unit :=
  match o with
  | Default T => forget (indirect_default al ct T s).1
  | InPlace T ts => forget (indirect_in_place al ct T ts s).1
  | MakeIndirect T ts => forget (make_indirect al ct T ts s).1
  | Copy other => forget (indirect_copy al ct other s).1
  | Move other => forget (indirect_move al ct other s).1
  | ConvCopy T other => forget (indirect_conv_copy al ct T other s).1
  | ConvMove T other => forget (indirect_conv_move al ct T other s).1
  | CopyAssign this other => forget (copy_assign al ct this other s).1
  | MoveAssign this other => forget (move_assign al ct this other s).1
  | FromValue T U v => forget (indirect_from_value al ct T U v s).1
  | FromRvalue T U v => forget (indirect_from_rvalue al ct T U v s).1
  | AssignValue this U v => forget (assign_value al ct this U v s).1
  | AssignRvalue this U v => forget (assign_rvalue al ct this U v s).1
  | Swap this other => forget (swap this other s).1
  | Arrow this => forget (arrow this s).1
  | Star this => forget (star ct this s).1
  | Member this f => forget (member ct this f s).1
  | Mutate this g => forget (mutate ct this g s).1
  | StaticCast T i => forget (static_indirect_cast al ct T i s).1
  | StaticCastMove T i => forget (static_indirect_cast_move al ct T i s).1
  | DynamicCast T i => forget (dynamic_indirect_cast al ct T i s).1
  | DynamicCastMove T i => forget (dynamic_indirect_cast_move al ct T i s).1
  | Destroy this => forget (destroy this s).1
  end.

(** [defined c s]: running c from s does not end in undefined
    behaviour. *)
Definition defined {A} (c : M A) (s : state) : Prop := (c s).1 ≠ Undefined.

(** [frames W c]: c leaves every wrapper outside W as it is. *)
Definition frames {A} (W : list nat) (c : M A) : Prop :=
  ∀ s w i, w ∉ W → vars s !! w = Some i → vars (c s).2 !! w = Some i.

(** [nothrow c]: c never throws.  [strong c]: if c throws, the state is
    as it was before c.  [nocast c]: c never throws [bad_indirect_cast]. *)
Definition nothrow {A} (c : M A) : Prop := ∀ s e, (c s).1 ≠ Throw e.

Definition strong {A} (c : M A) : Prop :=
  ∀ s e, (c s).1 = Throw e → (c s).2 = s.

Definition nocast {A} (c : M A) : Prop :=
  ∀ s, (c s).1 ≠ Throw bad_indirect_cast.

(** [grows c]: whatever c does, every block and every wrapper of the
    state before is in the state after, unchanged. *)
Definition grows {A} (c : M A) : Prop :=
  ∀ s, heap s ⊆ heap (c s).2 ∧ vars s ⊆ vars (c s).2.

(** Every live block has an owner, and there are as many live blocks as
    wrappers. *)
Definition all_owned (s : state) : Prop :=
  ∀ a, a ∈ dom (heap s) → ∃ w, block_of s w = Some a.

Definition counted (s : state) : Prop :=
  all_owned s ∧ size (heap s) = size (vars s).

(** [reassigned s s' t c v]: between s and s' the wrapper t was given a
    block of class c holding v; it kept its view type, the block it owned
    before is released, and every other wrapper is as it was and holds
    what it held. *)
Definition reassigned (s s' : state) (t : nat) (c : string) (v : gmap Z Z)
    : Prop :=
  held s' t = Some (Block c v)
  ∧ view <$> vars s' !! t = view <$> vars s !! t
  ∧ (∀ old, block_of s t = Some old → heap s' !! old = None)
  ∧ (∀ w, w ≠ t → vars s' !! w = vars s !! w ∧ held s' w = held s w).

(** [allocates p]: p either returns a block at an address that was not
    live, the only change to the set of live addresses and no change to
    the wrappers, or it does not return and leaves the state as it was. *)
Definition allocates (p : M Z) : Prop :=
  ∀ s,
    match p s with
    | (Ret n, s') =>
        (n ∉ dom (heap s))
        ∧ dom (heap s') = {[n]} ∪ dom (heap s)
        ∧ vars s' = vars s
    | (_, s') => s' = s
    end.

End Requests.

(** ** A concrete allocator and the classes of the test suites *)

(** A bump allocator: 64 bytes past the highest live address. *)
Definition bump (live : gset Z) : Z := set_fold Z.max 0 live + 64.

(** [bump] returns a positive address above every live one. *)
Program Definition bump_allocator : allocator := Allocator bump _ _.
Next Obligation.
  intros live Hin.
  assert (∀ x, x ∈ live → x ≤ set_fold Z.max 0 live) as Hmax.
  { apply (set_fold_ind_L (λ r X, ∀ x, x ∈ X → x ≤ r)); [set_solver |].
    intros x X r Hx IH y [->%elem_of_singleton | Hy]%elem_of_union; [lia |].
    specialize (IH y Hy). lia. }
  specialize (Hmax _ Hin). unfold bump in Hmax. lia.
Qed.
Next Obligation.
  intros live. unfold bump.
  assert (0 ≤ set_fold Z.max 0 live); [| lia].
  apply (set_fold_ind_L (λ r X, 0 ≤ r)); [lia |]. intros x X r _ IH. lia.
Qed.

Module Tests.

(** The classes of test_indirect.cpp (base, derived, derived_other) and
    the multiply derived hierarchy of TestDeepPtr.cpp, laid out as the
    Itanium C++ ABI does on an LP64 target: an 8 byte vptr first, int
    members after it, the second base subobject after the first.  One
    class is not of the suites: [fragile], a class with one int member
    whose copy constructor always throws. *)

Definition image (l : list (Z * Z)) : gmap Z Z := list_to_map l.

Definition t_ctor (T : string) (ts : list Z) : option (gmap Z Z) :=
  if decide (T = "derived") then
    match ts with
    | [] => Some (image [(8, 0)])
    | [v] => Some (image [(8, v)])
    | _ => None
    end
  else if decide (T = "derived_other") then
    match ts with [] => Some (image [(8, 0)]) | _ => None end
  else if decide (T = "fragile") then
    match ts with [v] => Some (image [(8, v)]) | _ => None end
  else if decide (T = "BaseA") then
    match ts with [] => Some (image [(8, 0)]) | _ => None end
  else if decide (T = "BaseB") then
    match ts with [] => Some (image [(8, 42)]) | _ => None end
  else if decide (T = "IntermediateBaseA") then
    match ts with [] => Some (image [(8, 0); (12, 3)]) | _ => None end
  else if decide (T = "IntermediateBaseB") then
    match ts with [] => Some (image [(8, 42); (12, 101)]) | _ => None end
  else if decide (T = "MultiplyDerived") then
    match ts with
    | [v] => Some (image [(8, 0); (12, 3); (24, 42); (28, 101); (32, v)])
    | _ => None
    end
  else None.

(** Every copy constructor of the suites copies the members. *)
Definition t_copy_ctor (T : string) (v : gmap Z Z) : option (gmap Z Z) :=
  if decide (T = "fragile") then None else Some v.

(** [derived(derived&& other)] zeroes [other.value]; the implicit move
    constructors of the other classes copy the int members. *)
Definition t_move_ctor (T : string) (v : gmap Z Z) : gmap Z Z * gmap Z Z :=
  if decide (T = "derived") then (v, <[8 := 0]> v) else (v, v).

Definition t_base_off (D B : string) : option Z :=
  if decide (D = B) then Some 0
  else if decide (D = "derived" ∧ B = "base") then Some 0
  else if decide (D = "derived_other" ∧ B = "base") then Some 0
  else if decide (D = "IntermediateBaseA" ∧ B = "BaseA") then Some 0
  else if decide (D = "IntermediateBaseB" ∧ B = "BaseB") then Some 0
  else if decide (D = "MultiplyDerived" ∧ B = "IntermediateBaseA") then Some 0
  else if decide (D = "MultiplyDerived" ∧ B = "BaseA") then Some 0
  else if decide (D = "MultiplyDerived" ∧ B = "IntermediateBaseB") then Some 16
  else if decide (D = "MultiplyDerived" ∧ B = "BaseB") then Some 16
  else None.

Definition t_field_off (C f : string) : option Z :=
  if decide (C = "derived" ∧ f = "value") then Some 8
  else if decide (C = "derived_other" ∧ f = "value") then Some 8
  else if decide (C = "BaseA" ∧ f = "a_") then Some 8
  else if decide (C = "BaseB" ∧ f = "b_") then Some 8
  else if decide (C = "IntermediateBaseA" ∧ f = "a_") then Some 8
  else if decide (C = "IntermediateBaseA" ∧ f = "ia_") then Some 12
  else if decide (C = "IntermediateBaseB" ∧ f = "b_") then Some 8
  else if decide (C = "IntermediateBaseB" ∧ f = "ib_") then Some 12
  else if decide (C = "MultiplyDerived" ∧ f = "a_") then Some 8
  else if decide (C = "MultiplyDerived" ∧ f = "ia_") then Some 12
  else if decide (C = "MultiplyDerived" ∧ f = "b_") then Some 24
  else if decide (C = "MultiplyDerived" ∧ f = "ib_") then Some 28
  else if decide (C = "MultiplyDerived" ∧ f = "value_") then Some 32
  else None.

Definition classes : class_table :=
  ClassTable t_ctor t_copy_ctor t_move_ctor t_base_off t_field_off 8
    ltac:(lia).

Definition s0 : state := State ∅ ∅.

(** The image of a [derived] whose member [value] is 42. *)
Definition v42 : gmap Z Z := image [(8, 42)].

(** Running a computation for its state, and reading results off. *)
Definition exec {A} (c : M A) (s : state) : state := snd (c s).
Definition result {A} (c : M A) (s : state) : outcome A := fst (c s).

(** [derived::get_value] through whatever view: the virtual call reads
    the member [value] of the object. *)
Definition get_value (w : nat) : M Z :=
  o ← star classes w;
  match o !! 8 with Some x => ret x | None => undefined end.

Definition A := bump_allocator.
Definition C := classes.

(** [indirect<derived> d{in_place, 42};] *)
Definition s_derived : state :=
  exec (indirect_in_place A C "derived" [42]) s0.

(** [indirect<derived> d1{in_place, 42}; indirect<derived> d2;] *)
Definition s_two : state :=
  exec (indirect_default A C "derived") s_derived.

(** [indirect<base> b1 = make_indirect<derived>(42);]: the temporary is
    wrapper 0, b1 is wrapper 1. *)
Definition s_base : state :=
  exec (t ← make_indirect A C "derived" [42];
        _ ← indirect_conv_move A C "base" t;
        destroy t) s0.

(** [indirect<base> b1 = make_indirect<derived>(42);
     auto o = static_indirect_cast<derived_other>(b1);]: the cast is
    unchecked, and o, wrapper 2, is a view of type [derived_other] of a
    copy of the [derived]. *)
Definition s_miscast : state :=
  exec (static_indirect_cast A C "derived_other" 1) s_base.

(** [indirect<fragile> f{in_place, 5}; indirect<fragile> g{in_place, 6};] *)
Definition s_fragile : state :=
  exec (_ ← indirect_in_place A C "fragile" [5];
        indirect_in_place A C "fragile" [6]) s0.

(** [auto d = make_indirect<MultiplyDerived>(7);
     indirect<IntermediateBaseA> ia = d;
     indirect<IntermediateBaseB> ib = d;]: wrappers 0, 1 and 2. *)
Definition s_multi : state :=
  exec (d ← make_indirect A C "MultiplyDerived" [7];
        _ ← indirect_conv_copy A C "IntermediateBaseA" d;
        indirect_conv_copy A C "IntermediateBaseB" d) s0.

(** The value of [MultiplyDerived(7)]: [a_ = 0], [ia_ = 3] in the first
    base, [b_ = 42], [ib_ = 101] in the second, then [value_ = 7]. *)
Definition md7 : gmap Z Z :=
  image [(8, 0); (12, 3); (24, 42); (28, 101); (32, 7)].


End Tests.

(** ** Running the operations *)

Ltac munfold :=
  unfold get_var, get_block, unique_deref, unique_reset;
  unfold get_heap, put_heap, get_vars, put_vars;
  unfold mbind, M_bind, bind, mret, M_ret, ret, throw, undefined.

Section Run.
Context (al : allocator) (ct : class_table).

Implicit Types (s : state) (w this other : nat) (a n : Z) (b : block).

Lemma bind_run {A B} (c : M A) (k : A → M B) s x s' :
  c s = (Ret x, s') → (c ≫= k) s = k x s'.
Proof. intros H. munfold. by rewrite H. Qed.

Lemma bind_throw {A B} (c : M A) (k : A → M B) s e s' :
  c s = (Throw e, s') → (c ≫= k) s = (Throw e, s').
Proof. intros H. munfold. by rewrite H. Qed.

Lemma bind_undefined {A B} (c : M A) (k : A → M B) s s' :
  c s = (Undefined, s') → (c ≫= k) s = (Undefined, s').
Proof. intros H. munfold. by rewrite H. Qed.

Lemma get_var_run s w i : vars s !! w = Some i → get_var w s = (Ret i, s).
Proof. intros H. munfold. cbn. by rewrite H. Qed.

Lemma get_var_none s w : vars s !! w = None → get_var w s = (Undefined, s).
Proof. intros H. munfold. cbn. by rewrite H. Qed.

Lemma state_eta s : State (heap s) (vars s) = s.
Proof. by destruct s. Qed.

Lemma make_unique_run s T v :
  make_unique al T v s =
    (Ret (alloc al (dom (heap s))),
     State (<[alloc al (dom (heap s)) := Block T v]> (heap s)) (vars s)).
Proof. reflexivity. Qed.

Lemma alloc_None s : heap s !! alloc al (dom (heap s)) = None.
Proof. apply not_elem_of_dom, alloc_fresh. Qed.

Lemma cb_copy_run s a b v :
  heap s !! a = Some b →
  copy_ctor ct (blk_cls b) (blk_t b) = Some v →
  cb_copy al ct a s =
    (Ret (alloc al (dom (heap s))),
     State (<[alloc al (dom (heap s)) := Block (blk_cls b) v]> (heap s)) (vars s)).
Proof.
  intros Ha Hc. unfold cb_copy, make_dcb_copy. munfold. cbn. rewrite Ha.
  cbn. by rewrite Hc.
Qed.

Lemma cb_copy_throw s a b :
  heap s !! a = Some b →
  copy_ctor ct (blk_cls b) (blk_t b) = None →
  cb_copy al ct a s = (Throw payload_exception, s).
Proof.
  intros Ha Hc. unfold cb_copy, make_dcb_copy. munfold. cbn. rewrite Ha.
  cbn. by rewrite Hc.
Qed.

Lemma cb_move_run s a b :
  heap s !! a = Some b →
  cb_move al ct a s =
    (Ret (alloc al (dom (heap s))),
     State (<[alloc al (dom (heap s)) :=
                Block (blk_cls b) (move_ctor ct (blk_cls b) (blk_t b)).1]>
              (<[a := Block (blk_cls b) (move_ctor ct (blk_cls b) (blk_t b)).2]>
                 (heap s)))
           (vars s)).
Proof.
  intros Ha. unfold cb_move. munfold. cbn. rewrite Ha. cbn.
  destruct (move_ctor ct (blk_cls b) (blk_t b)) as [v rest]. cbn.
  unfold make_unique. munfold. cbn.
  assert (dom (<[a := Block (blk_cls b) rest]> (heap s)) = dom (heap s)) as ->.
  { rewrite dom_insert_L. apply subseteq_union_1_L, singleton_subseteq_l.
    by apply elem_of_dom_2 in Ha. }
  reflexivity.
Qed.

Lemma from_cb_run s T a b :
  heap s !! a = Some b →
  indirect_from_cb ct T (Some a) s =
    (Ret (fresh (dom (vars s))),
     State (heap s)
           (<[fresh (dom (vars s)) :=
                Indirect T (Data (a + t_offset ct) (Some a))]> (vars s))).
Proof.
  intros Ha. unfold indirect_from_cb, data_init, cb_ptr, new_var,
    static_cast_from_void. munfold. cbn. by rewrite Ha.
Qed.

Lemma data_assign_run s this i a b :
  vars s !! this = Some i →
  heap s !! a = Some b →
  data_assign ct this (Some a) s =
    (Ret tt,
     State (release (cb (m i)) (heap s))
           (<[this := Indirect (view i) (Data (a + t_offset ct) (Some a))]>
              (vars s))).
Proof.
  intros Hi Ha. unfold data_assign, cb_ptr, set_ptr, set_cb,
    static_cast_from_void. munfold. cbn. rewrite Hi. cbn. rewrite Ha. cbn.
  rewrite Hi. cbn. rewrite lookup_insert_eq. cbn. rewrite insert_insert_eq.
  by destruct (cb (m i)).
Qed.

(** *** Well-formedness, unfolded, and the state changes that keep it *)

Lemma wf_iff s :
  wf ct s ↔
    (∀ w i, vars s !! w = Some i →
       ∃ a b, cb (m i) = Some a ∧ heap s !! a = Some b
              ∧ ptr (m i) = a + t_offset ct)
    ∧ (∀ w1 w2 i1 i2, vars s !! w1 = Some i1 → vars s !! w2 = Some i2 →
         cb (m i1) = cb (m i2) → w1 = w2)
    ∧ (∀ a b, heap s !! a = Some b → 0 < a).
Proof.
  unfold wf, map_Forall. split.
  - intros (H1 & H2 & H3). split_and!; [| by eauto | by eauto].
    intros w i Hw. destruct (H1 w i Hw) as [Hc [b Hb]].
    exists (ptr (m i) - t_offset ct), b. split_and!; [done | done | lia].
  - intros (H1 & H2 & H3). split_and!; [| by eauto | by eauto].
    intros w i Hw. destruct (H1 w i Hw) as (a & b & Hc & Hb & Hp).
    replace (ptr (m i) - t_offset ct) with a by lia. eauto.
Qed.

Lemma wf_ptr_nonnull s w i :
  wf ct s → vars s !! w = Some i → ptr (m i) ≠ 0.
Proof.
  intros (H1 & _ & H3)%wf_iff Hw.
  destruct (H1 w i Hw) as (a & b & _ & Hb & ->).
  specialize (H3 a b Hb). pose proof (t_offset_nonneg ct). lia.
Qed.

Lemma wf_block_update h v a b b' :
  wf ct (State h v) → h !! a = Some b → wf ct (State (<[a := b']> h) v).
Proof.
  intros (H1 & H2 & H3)%wf_iff Ha. apply wf_iff. cbn in *. split_and!.
  - intros w i Hw. destruct (H1 w i Hw) as (a' & b0 & Hc & Hb & Hp).
    destruct (decide (a = a')) as [<- | Hne].
    + exists a, b'. by rewrite lookup_insert_eq.
    + exists a', b0. by rewrite lookup_insert_ne.
  - done.
  - intros a' b0 [[<- _] | [_ Hb]]%lookup_insert_Some; eauto.
Qed.

Lemma wf_new h v n b w T :
  wf ct (State h v) → h !! n = None → 0 < n → v !! w = None →
  wf ct (State (<[n := b]> h)
               (<[w := Indirect T (Data (n + t_offset ct) (Some n))]> v)).
Proof.
  intros (H1 & H2 & H3)%wf_iff Hn Hpos Hw. apply wf_iff. cbn in *.
  assert (∀ w' i, v !! w' = Some i → cb (m i) ≠ Some n) as Hold.
  { intros w' i Hw' Hc. destruct (H1 w' i Hw') as (a & b0 & Hc' & Hb & _).
    congruence. }
  split_and!.
  - intros w' i [[<- <-] | [Hne Hw']]%lookup_insert_Some; cbn.
    + exists n, b. by rewrite lookup_insert_eq.
    + destruct (H1 w' i Hw') as (a & b0 & Hc & Hb & Hp).
      exists a, b0. rewrite lookup_insert_ne; [done | congruence].
  - intros w1 w2 i1 i2 [[<- <-] | [Hne1 Hw1]]%lookup_insert_Some
      [[<- <-] | [Hne2 Hw2]]%lookup_insert_Some Hc; cbn in *.
    + done.
    + by destruct (Hold w2 i2 Hw2).
    + by destruct (Hold w1 i1 Hw1).
    + eauto.
  - intros a b0 [[<- _] | [_ Hb]]%lookup_insert_Some; eauto.
Qed.

Lemma wf_assign h v n b t i T :
  wf ct (State h v) → h !! n = None → 0 < n → v !! t = Some i →
  wf ct (State (release (cb (m i)) (<[n := b]> h))
               (<[t := Indirect T (Data (n + t_offset ct) (Some n))]> v)).
Proof.
  intros (H1 & H2 & H3)%wf_iff Hn Hpos Ht. apply wf_iff. cbn in *.
  assert (∀ w' i', v !! w' = Some i' → cb (m i') ≠ Some n) as Hold.
  { intros w' i' Hw' Hc. destruct (H1 w' i' Hw') as (a & b0 & Hc' & Hb & _).
    congruence. }
  destruct (H1 t i Ht) as (old & bo & Hco & Hbo & _). rewrite Hco. cbn.
  assert (old ≠ n) as Hon by congruence.
  split_and!.
  - intros w' i' [[<- <-] | [Hne Hw']]%lookup_insert_Some; cbn.
    + exists n, b. by rewrite lookup_delete_ne, lookup_insert_eq.
    + destruct (H1 w' i' Hw') as (a & b0 & Hc & Hb & Hp).
      exists a, b0. split_and!; [done | | done].
      rewrite lookup_delete_ne, lookup_insert_ne; [done | congruence |].
      intros <-. apply Hne. eapply H2; eauto. congruence.
  - intros w1 w2 i1 i2 [[<- <-] | [Hne1 Hw1]]%lookup_insert_Some
      [[<- <-] | [Hne2 Hw2]]%lookup_insert_Some Hc; cbn in *.
    + done.
    + by destruct (Hold w2 i2 Hw2).
    + by destruct (Hold w1 i1 Hw1).
    + eauto.
  - intros a b0 [_ [[<- _] | [_ Hb]]%lookup_insert_Some]%lookup_delete_Some;
      eauto.
Qed.

Lemma wf_destroy h v t i :
  wf ct (State h v) → v !! t = Some i →
  wf ct (State (release (cb (m i)) h) (delete t v)).
Proof.
  intros (H1 & H2 & H3)%wf_iff Ht. apply wf_iff. cbn in *.
  destruct (H1 t i Ht) as (old & bo & Hco & Hbo & _). rewrite Hco. cbn.
  split_and!.
  - intros w' i' [Hne Hw']%lookup_delete_Some.
    destruct (H1 w' i' Hw') as (a & b0 & Hc & Hb & Hp).
    exists a, b0. split_and!; [done | | done].
    rewrite lookup_delete_ne; [done |].
    intros <-. apply Hne. eapply H2; eauto. congruence.
  - intros w1 w2 i1 i2 [_ Hw1]%lookup_delete_Some [_ Hw2]%lookup_delete_Some.
    eauto.
  - intros a b0 [_ Hb]%lookup_delete_Some. eauto.
Qed.

Lemma wf_swap h v w1 w2 i1 i2 :
  wf ct (State h v) → v !! w1 = Some i1 → v !! w2 = Some i2 →
  wf ct (State h (<[w2 := Indirect (view i2) (m i1)]>
                    (<[w1 := Indirect (view i1) (m i2)]> v))).
Proof.
  intros (H1 & H2 & H3)%wf_iff Hw1 Hw2. apply wf_iff. cbn in *.
  split_and!; [| | done].
  - intros w i [[<- <-] | [Hne [[<- <-] | [Hne' Hw]]%lookup_insert_Some]]
      %lookup_insert_Some; cbn; eauto.
  - intros x y ix iy
      [[<- <-] | [Hx [[<- <-] | [Hx' Hwx]]%lookup_insert_Some]]%lookup_insert_Some
      [[<- <-] | [Hy [[<- <-] | [Hy' Hwy]]%lookup_insert_Some]]%lookup_insert_Some
      Hc; cbn in *; try done.
    all: repeat match goal with
         | Ha : _ !! ?a = Some ?ia, Hb : _ !! ?b = Some ?ib |- _ =>
             lazymatch goal with
             | _ : cb (m ia) = cb (m ib) → a = b |- _ => fail
             | _ => pose proof (H2 a b ia ib Ha Hb)
             end
         end.
    all: naive_solver congruence.
Qed.

(** *** Computations that only read, that produce a block, that keep
    well-formedness *)

Lemma reads_bind {A B} (c : M A) (k : A → M B) :
  reads c → (∀ x, reads (k x)) → reads (c ≫= k).
Proof.
  intros Hc Hk s. specialize (Hc s). munfold.
  destruct (c s) as [[x | e |] s']; cbn in *; subst; [apply Hk | done..].
Qed.

Lemma reads_ret {A} (x : A) : reads (ret x).
Proof. done. Qed.
Lemma reads_throw {A} e : reads (@throw A e).
Proof. done. Qed.
Lemma reads_undefined {A} : reads (@undefined A).
Proof. done. Qed.

Lemma reads_get_var w : reads (get_var w).
Proof. intros s. munfold. cbn. by destruct (vars s !! w). Qed.

Lemma reads_get_block a : reads (get_block a).
Proof. intros s. munfold. cbn. by destruct (heap s !! a). Qed.

Lemma reads_pointee p : reads (pointee ct p).
Proof. unfold pointee. case_decide; [done | apply reads_get_block]. Qed.

Lemma reads_dynamic_cast T U p : reads (dynamic_cast ct T U p).
Proof.
  unfold dynamic_cast. case_decide; [done |]. case_match; [done |].
  apply reads_bind; [apply reads_pointee |]. intros b.
  by repeat case_match.
Qed.

Lemma reads_read_member T p f : reads (read_member ct T p f).
Proof.
  unfold read_member. apply reads_bind; [apply reads_pointee |].
  intros b. by repeat case_match.
Qed.

Lemma reads_arrow w : reads (arrow w).
Proof. apply reads_bind; [apply reads_get_var | done]. Qed.

Lemma reads_star w : reads (star ct w).
Proof.
  apply reads_bind; [apply reads_get_var |]. intros i.
  apply reads_bind; [apply reads_pointee | done].
Qed.

Lemma reads_member w f : reads (member ct w f).
Proof.
  apply reads_bind; [apply reads_get_var |]. intros i.
  apply reads_read_member.
Qed.

Lemma reads_has_value w : reads (has_value w).
Proof. apply reads_bind; [apply reads_get_var | done]. Qed.

Lemma reads_try_static_cast U w : reads (try_static_cast U w).
Proof. apply reads_bind; [apply reads_get_var | done]. Qed.

Lemma reads_try_dynamic_cast U w : reads (try_dynamic_cast ct U w).
Proof.
  apply reads_bind; [apply reads_get_var |]. intros i.
  apply reads_bind; [apply reads_dynamic_cast |]. intros q.
  by case_decide.
Qed.

Lemma reads_keeps {A} (c : M A) : reads c → keeps ct c.
Proof. intros Hc s Hs. by rewrite Hc. Qed.

Lemma keeps_reads_bind {A B} (c : M A) (k : A → M B) :
  reads c → (∀ x, keeps ct (k x)) → keeps ct (c ≫= k).
Proof.
  intros Hc Hk s Hs. specialize (Hc s). munfold.
  destruct (c s) as [[x | e |] s']; cbn in *; subst; [by apply Hk | done..].
Qed.

Lemma produces_reads_bind {A} (c : M A) (k : A → M Z) :
  reads c → (∀ x, produces ct (k x)) → produces ct (c ≫= k).
Proof.
  intros Hc Hk s Hs. specialize (Hc s). munfold.
  destruct (c s) as [[x | e |] s']; cbn in *; subst; [by apply Hk | done..].
Qed.

Lemma produces_throw e : produces ct (throw e).
Proof. by intros s Hs. Qed.

Lemma produces_undefined : produces ct undefined.
Proof. by intros s Hs. Qed.

Lemma produces_make_unique T v : produces ct (make_unique al T v).
Proof.
  intros s Hs. rewrite make_unique_run.
  exists (heap s), (Block T v). rewrite state_eta.
  split_and!; [done | apply alloc_None | apply alloc_pos | done].
Qed.

Lemma produces_make_dcb T ts : produces ct (make_dcb al ct T ts).
Proof.
  unfold make_dcb. case_match;
    [apply produces_make_unique | apply produces_throw].
Qed.

Lemma produces_make_dcb_copy T v : produces ct (make_dcb_copy al ct T v).
Proof.
  unfold make_dcb_copy. case_match;
    [apply produces_make_unique | apply produces_throw].
Qed.

Lemma produces_cb_copy a : produces ct (cb_copy al ct a).
Proof.
  apply produces_reads_bind; [apply reads_get_block |].
  intros b. apply produces_make_dcb_copy.
Qed.

Lemma produces_cb_move a : produces ct (cb_move al ct a).
Proof.
  intros s Hs. destruct (heap s !! a) as [b |] eqn:Ha.
  - rewrite (cb_move_run _ _ _ Ha). eexists _, _.
    split_and!; [| | apply alloc_pos | done].
    + eapply wf_block_update; [by rewrite state_eta | done].
    + rewrite lookup_insert_ne; [apply alloc_None |].
      intros ->. by rewrite alloc_None in Ha.
  - unfold cb_move. munfold. cbn. by rewrite Ha.
Qed.

Lemma produces_other_cb_copy w : produces ct (other_cb_copy al ct w).
Proof.
  apply produces_reads_bind; [apply reads_get_var |]. intros o.
  destruct (cb (m o)); cbn;
    [apply produces_cb_copy | apply produces_undefined].
Qed.

Lemma produces_other_cb_move w : produces ct (other_cb_move al ct w).
Proof.
  apply produces_reads_bind; [apply reads_get_var |]. intros o.
  destruct (cb (m o)); cbn;
    [apply produces_cb_move | apply produces_undefined].
Qed.

Lemma keeps_from_cb (p : M Z) T :
  produces ct p → keeps ct (p ≫= λ n, indirect_from_cb ct T (Some n)).
Proof.
  intros Hp s Hs. specialize (Hp s Hs). munfold.
  destruct (p s) as [[n | e |] s']; cbn -[indirect_from_cb]; subst;
    [| done..].
  destruct Hp as (h & b & Hwf & Hn & Hpos & ->).
  erewrite from_cb_run by (cbn; apply lookup_insert_eq). cbn.
  apply wf_new; [done.. |]. apply not_elem_of_dom, is_fresh.
Qed.

Lemma keeps_assign (p : M Z) this :
  produces ct p →
  keeps ct (get_var this ≫= λ _, p ≫= λ n, data_assign ct this (Some n)).
Proof.
  intros Hp s Hs. destruct (vars s !! this) as [i |] eqn:Hi.
  - erewrite bind_run by by apply get_var_run.
    specialize (Hp s Hs). munfold.
    destruct (p s) as [[n | e |] s']; cbn -[data_assign]; subst;
      [| done..].
    destruct Hp as (h & b & Hwf & Hn & Hpos & ->).
    erewrite data_assign_run
      by (cbn; first [eassumption | apply lookup_insert_eq]).
    cbn. by apply wf_assign.
  - erewrite bind_undefined by by apply get_var_none. done.
Qed.

Lemma swap_run s w1 w2 i1 i2 :
  vars s !! w1 = Some i1 → vars s !! w2 = Some i2 →
  swap w1 w2 s =
    (Ret tt,
     State (heap s)
           (<[w2 := Indirect (view i2) (m i1)]>
              (<[w1 := Indirect (view i1) (m i2)]> (vars s)))).
Proof.
  intros H1 H2. unfold swap, set_ptr, set_cb. munfold. cbn.
  rewrite H1. cbn. rewrite H2. cbn. rewrite H1. cbn.
  destruct (decide (w1 = w2)) as [-> | Hne].
  - assert (i1 = i2) as -> by congruence.
    destruct i2 as [v2 [p2 c2]]. cbn.
    repeat (rewrite lookup_insert_eq; cbn).
    by rewrite !insert_insert_eq.
  - destruct i1 as [v1 [p1 c1]], i2 as [v2 [p2 c2]]. cbn.
    repeat (first [ rewrite lookup_insert_eq
                  | rewrite lookup_insert_ne by done
                  | rewrite H1 | rewrite H2 ]; cbn).
    apply (f_equal (λ v, (Ret (), State (heap s) v))).
    apply map_eq. intros k.
    destruct (decide (k = w2)), (decide (k = w1)); by simplify_map_eq.
Qed.

Lemma keeps_swap w1 w2 : keeps ct (swap w1 w2).
Proof.
  intros s Hs.
  destruct (vars s !! w1) as [i1 |] eqn:H1;
    [| by (unfold swap; erewrite bind_undefined by by apply get_var_none)].
  destruct (vars s !! w2) as [i2 |] eqn:H2.
  - erewrite swap_run by done. cbn. apply wf_swap; [| done..].
    by rewrite state_eta.
  - unfold swap. erewrite bind_run by by apply get_var_run.
    by erewrite bind_undefined by by apply get_var_none.
Qed.

Lemma destroy_run s this i :
  vars s !! this = Some i →
  destroy this s =
    (Ret tt, State (release (cb (m i)) (heap s)) (delete this (vars s))).
Proof.
  intros H. unfold destroy. munfold. cbn. rewrite H. cbn.
  by destruct (cb (m i)).
Qed.

Lemma keeps_destroy this : keeps ct (destroy this).
Proof.
  intros s Hs. destruct (vars s !! this) as [i |] eqn:Hi.
  - erewrite destroy_run by done. cbn. apply wf_destroy; [| done].
    by rewrite state_eta.
  - unfold destroy. by erewrite bind_undefined by by apply get_var_none.
Qed.

Lemma pointee_run s p b :
  p ≠ 0 → heap s !! (p - t_offset ct) = Some b →
  pointee ct p s = (Ret b, s).
Proof.
  intros Hp Hb. unfold pointee. rewrite decide_False by done.
  munfold. cbn. by rewrite Hb.
Qed.

Lemma modify_at_run s p b g :
  p ≠ 0 → heap s !! (p - t_offset ct) = Some b →
  modify_at ct p g s =
    (Ret tt,
     State (<[p - t_offset ct := Block (blk_cls b) (g (blk_t b))]> (heap s))
           (vars s)).
Proof.
  intros Hp Hb. unfold modify_at.
  erewrite bind_run by by apply pointee_run. done.
Qed.

Lemma keeps_modify_at p g : keeps ct (modify_at ct p g).
Proof.
  intros s Hs. destruct (decide (p = 0)) as [-> | Hp].
  - done.
  - destruct (heap s !! (p - t_offset ct)) as [b |] eqn:Hb.
    + erewrite modify_at_run by done. cbn.
      eapply wf_block_update; [by rewrite state_eta | done].
    + unfold modify_at, pointee. rewrite decide_False by done.
      munfold. cbn. by rewrite Hb.
Qed.

Lemma keeps_mutate w g : keeps ct (mutate ct w g).
Proof.
  apply keeps_reads_bind; [apply reads_arrow |]. intros p.
  apply keeps_modify_at.
Qed.

End Run.

(** ** Every request keeps the state well-formed *)

Section Invariant.
Context (al : allocator) (ct : class_table).

Lemma keeps_ctor_copy T other : keeps ct (indirect_conv_copy al ct T other).
Proof. apply keeps_from_cb, produces_other_cb_copy. Qed.

Lemma keeps_ctor_move T other : keeps ct (indirect_conv_move al ct T other).
Proof. apply keeps_from_cb, produces_other_cb_move. Qed.

Lemma keeps_in_place T ts : keeps ct (indirect_in_place al ct T ts).
Proof. apply keeps_from_cb, produces_make_dcb. Qed.

Lemma exec_op_wf o s : wf ct s → wf ct (exec_op al ct o s).
Proof.
  destruct o; cbn [exec_op]; revert s.
  - apply keeps_in_place.
  - apply keeps_in_place.
  - apply keeps_in_place.
  - apply keeps_reads_bind; [apply reads_get_var |]. intros o.
    apply keeps_ctor_copy.
  - apply keeps_reads_bind; [apply reads_get_var |]. intros o.
    apply keeps_ctor_move.
  - apply keeps_ctor_copy.
  - apply keeps_ctor_move.
  - apply keeps_assign, produces_other_cb_copy.
  - apply keeps_assign, produces_other_cb_move.
  - apply keeps_from_cb, produces_make_dcb_copy.
  - apply keeps_from_cb, produces_make_unique.
  - apply keeps_assign, produces_make_dcb_copy.
  - apply keeps_assign, produces_make_unique.
  - apply keeps_swap.
  - apply reads_keeps, reads_arrow.
  - apply reads_keeps, reads_star.
  - apply reads_keeps, reads_member.
  - apply keeps_mutate.
  - apply keeps_reads_bind; [apply reads_try_static_cast |]. intros _.
    apply keeps_ctor_copy.
  - apply keeps_reads_bind; [apply reads_try_static_cast |]. intros _.
    apply keeps_ctor_move.
  - apply keeps_reads_bind; [apply reads_try_dynamic_cast |]. intros _.
    apply keeps_reads_bind; [apply reads_try_static_cast |]. intros _.
    apply keeps_ctor_copy.
  - apply keeps_reads_bind; [apply reads_try_dynamic_cast |]. intros _.
    apply keeps_reads_bind; [apply reads_try_static_cast |]. intros _.
    apply keeps_ctor_move.
  - apply keeps_destroy.
Qed.

Lemma run_wf ops s : wf ct s → wf ct (run al ct ops s).
Proof.
  revert s. induction ops as [| o ops IH]; intros s Hs; [done |].
  cbn. apply IH, exec_op_wf, Hs.
Qed.

Lemma wf_empty : wf ct (State ∅ ∅).
Proof. unfold wf. split_and!; apply map_Forall_empty. Qed.

Lemma wf_owner s w i :
  wf ct s → vars s !! w = Some i →
  ∃ a b, cb (m i) = Some a ∧ heap s !! a = Some b
         ∧ ptr (m i) = a + t_offset ct ∧ ptr (m i) ≠ 0.
Proof.
  intros Hs Hw. pose proof (wf_ptr_nonnull ct s w i Hs Hw) as Hp.
  apply wf_iff in Hs as (H1 & _ & _).
  destruct (H1 w i Hw) as (a & b & ? & ? & ?). eauto 10.
Qed.

Lemma star_run s w i a b :
  vars s !! w = Some i → heap s !! a = Some b →
  ptr (m i) = a + t_offset ct → ptr (m i) ≠ 0 →
  star ct w s = (Ret (blk_t b), s).
Proof.
  intros Hw Hb Hp Hnz. unfold star.
  erewrite bind_run by by apply get_var_run.
  erewrite bind_run; [done |]. apply pointee_run; [done |].
  by replace (ptr (m i) - t_offset ct) with a by lia.
Qed.

Lemma has_value_run s w i :
  vars s !! w = Some i →
  has_value w s = (Ret (bool_decide (ptr (m i) ≠ 0)), s).
Proof.
  intros Hw. unfold has_value. by erewrite bind_run by by apply get_var_run.
Qed.

Lemma wf_no_empty_wrapper s : wf ct s → no_empty_wrapper ct s.
Proof.
  intros Hs w i Hw.
  destruct (wf_owner s w i Hs Hw) as (a & b & Hc & Hb & Hp & Hnz).
  split_and!; [by rewrite Hc | done | |].
  - by rewrite (has_value_run _ _ _ Hw), bool_decide_eq_true_2.
  - exists (blk_t b). by eapply star_run.
Qed.

End Invariant.

(** ** The operations on a wrapper that holds a value *)

Section Results.
Context (al : allocator) (ct : class_table).

Implicit Types (s : state) (w this other t : nat) (a n : Z) (b : block).

Lemma held_inv s w b :
  held s w = Some b →
  ∃ i a, vars s !! w = Some i ∧ cb (m i) = Some a ∧ heap s !! a = Some b
         ∧ block_of s w = Some a.
Proof.
  unfold held, block_of. intros H.
  destruct (vars s !! w) as [i |] eqn:Hi; [| done]. cbn in *.
  destruct (cb (m i)) as [a |] eqn:Ha; [| done]. cbn in *. eauto 10.
Qed.

Lemma held_intro s w i a b :
  vars s !! w = Some i → cb (m i) = Some a → heap s !! a = Some b →
  held s w = Some b.
Proof. intros Hi Ha Hb. unfold held, block_of. rewrite Hi. cbn. by rewrite Ha. Qed.

Lemma other_cb_copy_run s w o a b v :
  vars s !! w = Some o → cb (m o) = Some a → heap s !! a = Some b →
  copy_ctor ct (blk_cls b) (blk_t b) = Some v →
  other_cb_copy al ct w s =
    (Ret (alloc al (dom (heap s))),
     State (<[alloc al (dom (heap s)) := Block (blk_cls b) v]> (heap s))
           (vars s)).
Proof.
  intros Hw Hc Hb Hv. unfold other_cb_copy.
  erewrite bind_run by by apply get_var_run.
  rewrite Hc. erewrite bind_run by done. by eapply cb_copy_run.
Qed.

Lemma other_cb_copy_throw s w o a b :
  vars s !! w = Some o → cb (m o) = Some a → heap s !! a = Some b →
  copy_ctor ct (blk_cls b) (blk_t b) = None →
  other_cb_copy al ct w s = (Throw payload_exception, s).
Proof.
  intros Hw Hc Hb Hv. unfold other_cb_copy.
  erewrite bind_run by by apply get_var_run.
  rewrite Hc. erewrite bind_run by done. by eapply cb_copy_throw.
Qed.

Lemma other_cb_move_run s w o a b :
  vars s !! w = Some o → cb (m o) = Some a → heap s !! a = Some b →
  other_cb_move al ct w s =
    (Ret (alloc al (dom (heap s))),
     State (<[alloc al (dom (heap s)) :=
                Block (blk_cls b) (move_ctor ct (blk_cls b) (blk_t b)).1]>
              (<[a := Block (blk_cls b) (move_ctor ct (blk_cls b) (blk_t b)).2]>
                 (heap s)))
           (vars s)).
Proof.
  intros Hw Hc Hb. unfold other_cb_move.
  erewrite bind_run by by apply get_var_run.
  rewrite Hc. erewrite bind_run by done. by eapply cb_move_run.
Qed.

Lemma conv_copy_run s T w o a b v :
  vars s !! w = Some o → cb (m o) = Some a → heap s !! a = Some b →
  copy_ctor ct (blk_cls b) (blk_t b) = Some v →
  indirect_conv_copy al ct T w s =
    (Ret (fresh (dom (vars s))),
     State (<[alloc al (dom (heap s)) := Block (blk_cls b) v]> (heap s))
           (<[fresh (dom (vars s)) :=
                Indirect T (Data (alloc al (dom (heap s)) + t_offset ct)
                                 (Some (alloc al (dom (heap s)))))]>
              (vars s))).
Proof.
  intros Hw Hc Hb Hv. unfold indirect_conv_copy.
  erewrite bind_run by by eapply other_cb_copy_run.
  erewrite from_cb_run by (cbn; apply lookup_insert_eq). done.
Qed.

Lemma conv_move_run s T w o a b :
  vars s !! w = Some o → cb (m o) = Some a → heap s !! a = Some b →
  indirect_conv_move al ct T w s =
    (Ret (fresh (dom (vars s))),
     State (<[alloc al (dom (heap s)) :=
                Block (blk_cls b) (move_ctor ct (blk_cls b) (blk_t b)).1]>
              (<[a := Block (blk_cls b) (move_ctor ct (blk_cls b) (blk_t b)).2]>
                 (heap s)))
           (<[fresh (dom (vars s)) :=
                Indirect T (Data (alloc al (dom (heap s)) + t_offset ct)
                                 (Some (alloc al (dom (heap s)))))]>
              (vars s))).
Proof.
  intros Hw Hc Hb. unfold indirect_conv_move.
  erewrite bind_run by by eapply other_cb_move_run.
  erewrite from_cb_run by (cbn; apply lookup_insert_eq). done.
Qed.

Lemma copy_assign_run s t i w o a b v :
  vars s !! t = Some i →
  vars s !! w = Some o → cb (m o) = Some a → heap s !! a = Some b →
  copy_ctor ct (blk_cls b) (blk_t b) = Some v →
  copy_assign al ct t w s =
    (Ret tt,
     State (release (cb (m i))
              (<[alloc al (dom (heap s)) := Block (blk_cls b) v]> (heap s)))
           (<[t := Indirect (view i)
                     (Data (alloc al (dom (heap s)) + t_offset ct)
                           (Some (alloc al (dom (heap s)))))]>
              (vars s))).
Proof.
  intros Ht Hw Hc Hb Hv. unfold copy_assign.
  erewrite bind_run by by apply get_var_run.
  erewrite bind_run by by eapply other_cb_copy_run.
  erewrite data_assign_run
    by (cbn; first [eassumption | apply lookup_insert_eq]). done.
Qed.

Lemma move_assign_run s t i w o a b :
  vars s !! t = Some i →
  vars s !! w = Some o → cb (m o) = Some a → heap s !! a = Some b →
  move_assign al ct t w s =
    (Ret tt,
     State (release (cb (m i))
              (<[alloc al (dom (heap s)) :=
                   Block (blk_cls b) (move_ctor ct (blk_cls b) (blk_t b)).1]>
                 (<[a := Block (blk_cls b)
                           (move_ctor ct (blk_cls b) (blk_t b)).2]>
                    (heap s))))
           (<[t := Indirect (view i)
                     (Data (alloc al (dom (heap s)) + t_offset ct)
                           (Some (alloc al (dom (heap s)))))]>
              (vars s))).
Proof.
  intros Ht Hw Hc Hb. unfold move_assign.
  erewrite bind_run by by apply get_var_run.
  erewrite bind_run by by eapply other_cb_move_run.
  erewrite data_assign_run
    by (cbn; first [eassumption | apply lookup_insert_eq]). done.
Qed.

Lemma copy_run s w o :
  vars s !! w = Some o →
  indirect_copy al ct w s = indirect_conv_copy al ct (view o) w s.
Proof.
  intros Hw. unfold indirect_copy. by erewrite bind_run by by apply get_var_run.
Qed.

Lemma move_run s w o :
  vars s !! w = Some o →
  indirect_move al ct w s = indirect_conv_move al ct (view o) w s.
Proof.
  intros Hw. unfold indirect_move. by erewrite bind_run by by apply get_var_run.
Qed.

(** *** What the wrappers of a state hold *)

Lemma release_lookup_ne p (h : gmap Z block) x :
  p ≠ Some x → release p h !! x = h !! x.
Proof.
  destruct p as [y |]; cbn; [| done]. intros Hne.
  rewrite lookup_delete_ne; [done | congruence].
Qed.

Lemma release_lookup_eq (h : gmap Z block) x : release (Some x) h !! x = None.
Proof. cbn. apply lookup_delete_eq. Qed.

Lemma held_at (h : gmap Z block) (v : gmap nat indirect) w i a :
  v !! w = Some i → cb (m i) = Some a →
  held (State h v) w = h !! a ∧ block_of (State h v) w = Some a
  ∧ view_ptr (State h v) w = Some (ptr (m i)).
Proof.
  intros Hw Hc. unfold held, block_of, view_ptr. cbn. rewrite Hw. cbn.
  by rewrite Hc.
Qed.

Lemma wf_distinct_blocks s w w' a a' :
  wf ct s → w ≠ w' → block_of s w = Some a → block_of s w' = Some a' →
  a ≠ a'.
Proof.
  intros (_ & H2 & _)%wf_iff Hne Ha Ha' <-. unfold block_of in *.
  destruct (vars s !! w) as [i |] eqn:Hi; [| done].
  destruct (vars s !! w') as [i' |] eqn:Hi'; [| done]. cbn in *.
  apply Hne. eapply H2; eauto. congruence.
Qed.

Lemma wf_view_ptr s w i a :
  wf ct s → vars s !! w = Some i → cb (m i) = Some a →
  ptr (m i) = a + t_offset ct ∧ ptr (m i) ≠ 0.
Proof.
  intros Hs Hw Hc.
  destruct (wf_owner ct s w i Hs Hw) as (a' & b' & Hc' & _ & Hp & Hnz).
  split; [congruence | done].
Qed.

(** [operator*] yields the held object and the has-value query answers
    true, for every wrapper of a well-formed state. *)
Lemma star_held s w b :
  wf ct s → held s w = Some b → star ct w s = (Ret (blk_t b), s).
Proof.
  intros Hs (i & a & Hi & Hc & Hb & _)%held_inv.
  destruct (wf_view_ptr s w i a Hs Hi Hc) as [Hp Hnz].
  by eapply star_run.
Qed.

Lemma has_value_held s w b :
  wf ct s → held s w = Some b → has_value w s = (Ret true, s).
Proof.
  intros Hs (i & a & Hi & Hc & Hb & _)%held_inv.
  destruct (wf_view_ptr s w i a Hs Hi Hc) as [Hp Hnz].
  by rewrite (has_value_run _ _ _ Hi), bool_decide_eq_true_2.
Qed.

(** A write through a wrapper changes the contents of its own block. *)
Lemma mutate_held s w b a g :
  wf ct s → held s w = Some b → block_of s w = Some a →
  mutate ct w g s =
    (Ret tt,
     State (<[a := Block (blk_cls b) (g (blk_t b))]> (heap s)) (vars s)).
Proof.
  intros Hs (i & a' & Hi & Hc & Hb & Ha)%held_inv Hblk.
  assert (a' = a) as -> by congruence.
  destruct (wf_view_ptr s w i a Hs Hi Hc) as [Hp Hnz].
  assert (arrow w s = (Ret (ptr (m i)), s)) as Harrow.
  { unfold arrow. by erewrite bind_run by by apply get_var_run. }
  assert (ptr (m i) - t_offset ct = a) as Hsub by lia.
  unfold mutate. erewrite bind_run by exact Harrow.
  erewrite modify_at_run; rewrite ?Hsub; done.
Qed.

Lemma held_insert_new (h : gmap Z block) (v : gmap nat indirect) w T p n b :
  held (State (<[n := b]> h) (<[w := Indirect T (Data p (Some n))]> v)) w
  = Some b.
Proof.
  unfold held, block_of. cbn. rewrite lookup_insert_eq. cbn.
  apply lookup_insert_eq.
Qed.

Lemma held_insert_old (h : gmap Z block) (v : gmap nat indirect)
    w w' x i a n b :
  w ≠ w' → v !! w = Some i → cb (m i) = Some a → a ≠ n →
  held (State (<[n := b]> h) (<[w' := x]> v)) w = h !! a.
Proof.
  intros Hne Hw Hc Han. unfold held, block_of. cbn.
  rewrite lookup_insert_ne, Hw by done. cbn. rewrite Hc. cbn.
  by rewrite lookup_insert_ne.
Qed.

Lemma held_assign_new (h : gmap Z block) (v : gmap nat indirect)
    t T p n b old :
  old ≠ Some n →
  held (State (release old (<[n := b]> h))
              (<[t := Indirect T (Data p (Some n))]> v)) t
  = Some b.
Proof.
  intros Hold. unfold held, block_of. cbn. rewrite lookup_insert_eq. cbn.
  rewrite release_lookup_ne by done. apply lookup_insert_eq.
Qed.

Lemma held_assign_old (h : gmap Z block) (v : gmap nat indirect)
    w t x i a n b old :
  w ≠ t → v !! w = Some i → cb (m i) = Some a → a ≠ n → old ≠ Some a →
  held (State (release old (<[n := b]> h)) (<[t := x]> v)) w = h !! a.
Proof.
  intros Hne Hw Hc Han Hold. unfold held, block_of. cbn.
  rewrite lookup_insert_ne, Hw by done. cbn. rewrite Hc. cbn.
  rewrite release_lookup_ne by done. by rewrite lookup_insert_ne.
Qed.

(** A write through one wrapper shows through that wrapper and through
    no other. *)
Lemma mutation_isolated s w w' b b' g :
  wf ct s → w ≠ w' → held s w = Some b → held s w' = Some b' →
  star ct w (mutate ct w g s).2 = (Ret (g (blk_t b)), (mutate ct w g s).2)
  ∧ star ct w' (mutate ct w g s).2 = (Ret (blk_t b'), (mutate ct w g s).2).
Proof.
  intros Hs Hne Hw Hw'.
  pose proof (keeps_mutate ct w g s Hs) as Hs1.
  destruct (held_inv _ _ _ Hw) as (i & a & Hi & Hc & Hb & Ha).
  destruct (held_inv _ _ _ Hw') as (i' & a' & Hi' & Hc' & Hb' & Ha').
  pose proof (wf_distinct_blocks s w w' a a' Hs Hne Ha Ha') as Haa.
  rewrite (mutate_held s w b a g Hs Hw Ha) in *. cbn in *.
  destruct (held_at (<[a := Block (blk_cls b) (g (blk_t b))]> (heap s))
              (vars s) w i a Hi Hc) as (Hh & _ & _).
  destruct (held_at (<[a := Block (blk_cls b) (g (blk_t b))]> (heap s))
              (vars s) w' i' a' Hi' Hc') as (Hh' & _ & _).
  rewrite lookup_insert_eq in Hh. rewrite lookup_insert_ne, Hb' in Hh' by done.
  split.
  - by rewrite (star_held _ _ _ Hs1 Hh).
  - by rewrite (star_held _ _ _ Hs1 Hh').
Qed.

(** The allocator never hands out the address of a live block. *)
Lemma alloc_ne s a b : heap s !! a = Some b → alloc al (dom (heap s)) ≠ a.
Proof. intros Ha <-. by rewrite alloc_None in Ha. Qed.

Lemma fresh_var_ne s w i : vars s !! w = Some i → fresh (dom (vars s)) ≠ w.
Proof.
  intros Hw <-. apply elem_of_dom_2 in Hw. by apply is_fresh in Hw.
Qed.

(** In a well-formed state the object found at a wrapper's view pointer
    is the one the wrapper holds. *)
Lemma pointee_held s w i b :
  wf ct s → vars s !! w = Some i → held s w = Some b →
  pointee ct (ptr (m i)) s = (Ret b, s) ∧ 0 < ptr (m i).
Proof.
  intros Hs Hi (i' & a & Hi' & Hc & Hb & _)%held_inv.
  assert (i' = i) as -> by congruence.
  destruct (wf_view_ptr s w i a Hs Hi Hc) as [Hp Hnz].
  assert (0 < a).
  { apply wf_iff in Hs as (_ & _ & H3). eauto. }
  pose proof (t_offset_nonneg ct).
  split; [| lia]. apply pointee_run; [done |].
  by replace (ptr (m i) - t_offset ct) with a by lia.
Qed.

(** In a well-formed state every wrapper holds its object, and one whose
    view type has its subobject at the start of the held object reads
    that subobject's members. *)
Lemma wf_holds_object s w i D v :
  wf ct s → vars s !! w = Some i → held s w = Some (Block D v) →
  holds_object ct s w (view i) D v.
Proof.
  intros Hs Hi Hw.
  destruct (held_inv _ _ _ Hw) as (i' & a & Hi' & Hc & Hb & Ha).
  assert (i' = i) as -> by congruence.
  destruct (wf_view_ptr s w i a Hs Hi Hc) as [Hp _].
  unfold holds_object. split_and!.
  - by rewrite Hi.
  - done.
  - exists a. unfold view_ptr. rewrite Hi. cbn. by rewrite Hp.
  - exact (star_held s w _ Hs Hw).
Qed.

Lemma wf_reads_own_members s w i D v :
  wf ct s → vars s !! w = Some i → held s w = Some (Block D v) →
  base_off ct D (view i) = Some 0 →
  reads_own_members ct s w (view i).
Proof.
  intros Hs Hi Hw Hoff f.
  destruct (pointee_held s w i _ Hs Hi Hw) as [Hpt Hpos].
  unfold member, read_member, subobject_member.
  erewrite bind_run by by apply get_var_run.
  erewrite bind_run by exact Hpt.
  rewrite Hw. cbn. rewrite Hoff. cbn.
  destruct (field_off ct (view i) f) as [fo |]; cbn; [| done].
  replace (0 + fo) with fo by lia. by destruct (v !! fo).
Qed.

(** In a well-formed state [try_dynamic_cast] throws when the cast does
    not pass. *)
Lemma try_dynamic_cast_throw s T w i b :
  wf ct s → vars s !! w = Some i → held s w = Some b →
  ¬ cast_passes ct (view i) (blk_cls b) T →
  try_dynamic_cast ct T w s = (Throw bad_indirect_cast, s).
Proof.
  intros Hs Hi Hw Hno.
  destruct (pointee_held s w i b Hs Hi Hw) as [Hpt Hpos].
  unfold try_dynamic_cast. erewrite bind_run by by apply get_var_run.
  assert (dynamic_cast ct (view i) T (ptr (m i)) s = (Ret 0, s)) as Hdc.
  { unfold dynamic_cast. rewrite decide_False by lia.
    destruct (base_off ct (view i) T) as [o |] eqn:Hvt.
    { destruct Hno. left. by rewrite Hvt. }
    erewrite bind_run by exact Hpt.
    destruct (base_off ct (blk_cls b) (view i)) as [k |] eqn:Hdv; [| done].
    destruct (base_off ct (blk_cls b) T) as [o |] eqn:Hdt; [| done].
    case_decide as Hk; [| done]. subst k.
    destruct Hno. right. rewrite Hdt. eauto. }
  erewrite bind_run by exact Hdc. by rewrite decide_True.
Qed.

(** And it returns when the cast passes, to a subobject that is not
    before the object. *)
Lemma try_dynamic_cast_ok s T w i b :
  wf ct s → vars s !! w = Some i → held s w = Some b →
  cast_passes ct (view i) (blk_cls b) T →
  (∀ o, base_off ct (view i) T = Some o → 0 ≤ o) →
  (∀ o, base_off ct (blk_cls b) T = Some o → 0 ≤ o) →
  try_dynamic_cast ct T w s = (Ret tt, s).
Proof.
  intros Hs Hi Hw Hpass Hvo Hdo.
  destruct (pointee_held s w i b Hs Hi Hw) as [Hpt Hpos].
  unfold try_dynamic_cast. erewrite bind_run by by apply get_var_run.
  assert (∃ o, 0 ≤ o ∧ dynamic_cast ct (view i) T (ptr (m i)) s
                       = (Ret (ptr (m i) + o), s)) as (o & Ho & Hdc).
  { unfold dynamic_cast. rewrite decide_False by lia.
    destruct (base_off ct (view i) T) as [o |] eqn:Hvt.
    { exists o. split; [by apply Hvo | done]. }
    destruct Hpass as [[? Hx] | [Hdv [o' Hdt]]]; [congruence |].
    exists o'. split; [by apply Hdo |].
    erewrite bind_run by exact Hpt.
    by rewrite Hdv, Hdt, decide_True. }
  erewrite bind_run by exact Hdc. by rewrite decide_False by lia.
Qed.

Lemma try_dynamic_cast_cases s T w :
  wf ct s → is_Some (vars s !! w) →
  try_dynamic_cast ct T w s = (Ret tt, s)
  ∨ try_dynamic_cast ct T w s = (Throw bad_indirect_cast, s).
Proof.
  intros Hs [i Hi].
  destruct (wf_owner ct s w i Hs Hi) as (a & b & Hc & Hb & Hp & Hnz).
  unfold try_dynamic_cast. erewrite bind_run by by apply get_var_run.
  pose proof (reads_dynamic_cast ct (view i) T (ptr (m i)) s) as Hr.
  destruct (dynamic_cast ct (view i) T (ptr (m i)) s) as [[q | e |] s1] eqn:Hdc;
    cbn in Hr; subst s1.
  - erewrite bind_run by exact Hdc. case_decide; eauto.
  - exfalso. revert Hdc. unfold dynamic_cast.
    rewrite decide_False by done. case_match; [done |].
    erewrite bind_run
      by (apply pointee_run; [done |];
          by replace (ptr (m i) - t_offset ct) with a by lia).
    by repeat case_match.
  - exfalso. revert Hdc. unfold dynamic_cast.
    rewrite decide_False by done. case_match; [done |].
    erewrite bind_run
      by (apply pointee_run; [done |];
          by replace (ptr (m i) - t_offset ct) with a by lia).
    by repeat case_match.
Qed.

End Results.

(** ** Properties of the wrapper *)

Section Properties.
Context (al : allocator) (ct : class_table).

Implicit Types (s : state) (w this other t : nat) (a n : Z) (b : block).

(** C9: for two wrappers of the same view type, [swap] (member and free
    function) returns normally, leaves the free store as it was (nothing
    allocated, nothing released) and exchanges the control blocks and the
    view pointers of the two wrappers, so that each holds what the other
    held. *)
Theorem swap_exchanges s w1 w2 i1 i2 :
  vars s !! w1 = Some i1 → vars s !! w2 = Some i2 → view i1 = view i2 →
  ∃ s', swap w1 w2 s = (Ret tt, s')
        ∧ swap_indirect w1 w2 s = (Ret tt, s')
        ∧ exchanged s s' w1 w2.
Proof.
  intros H1 H2 Hv. eexists. split_and!; [by apply swap_run.. |].
  unfold exchanged, held, block_of. cbn. rewrite H1, H2. cbn.
  destruct (decide (w1 = w2)) as [-> | Hne].
  - assert (i1 = i2) as -> by congruence.
    rewrite !lookup_insert_eq. cbn. split_and!; try done.
    intros w Hw _. by rewrite !lookup_insert_ne.
  - rewrite lookup_insert_eq, lookup_insert_ne, lookup_insert_eq by done.
    cbn. split_and!; try done.
    intros w Hw1 Hw2. by rewrite !lookup_insert_ne.
Qed.


(** C10: whatever sequence of public operations a client performs from
    the start of the program, the state is well-formed and no wrapper in
    it is empty: every wrapper has a non-null control-block handle and a
    non-null view pointer, answers true to the has-value query, and
    dereferences to an object. *)
Theorem no_reachable_empty_wrapper (ops : list op) :
  wf ct (run al ct ops (State ∅ ∅))
  ∧ no_empty_wrapper ct (run al ct ops (State ∅ ∅)).
Proof.
  assert (wf ct (run al ct ops (State ∅ ∅))) as Hwf
    by apply run_wf, wf_empty.
  split; [done | by apply wf_no_empty_wrapper].
Qed.



(** C8: copy assignment gives the strong guarantee.  If the copy
    constructor of the stored class throws, the exception leaves the call
    with the state exactly as it was.  If it succeeds, the replacement
    block n is complete in a state s1 in which every block of the state
    before, the target's own included, is still as it was; only then
    does [data::operator=] install n and release the target's old
    block. *)
Theorem copy_assign_strong_guarantee s t w D v :
  wf ct s → is_Some (vars s !! t) → held s w = Some (Block D v) →
  (copy_ctor ct D v = None →
     copy_assign al ct t w s = (Throw payload_exception, s))
  ∧ (∀ v', copy_ctor ct D v = Some v' → clone_then_release al ct s t w D v').
Proof.
  intros Hs [i Hi] (o & a & Ho & Hc & Hb & _)%held_inv.
  destruct (wf_owner ct s t i Hs Hi) as (old & bo & Hco & Hbo & _).
  pose proof (alloc_ne al s old _ Hbo) as Hno.
  split.
  - intros Hv. unfold copy_assign.
    erewrite bind_run by by apply get_var_run.
    by erewrite bind_throw by by eapply other_cb_copy_throw.
  - intros v' Hv. unfold clone_then_release. eexists _, _, _.
    split_and!.
    + by eapply other_cb_copy_run.
    + cbn. apply lookup_insert_eq.
    + done.
    + intros x b Hx. cbn. rewrite lookup_insert_ne; [done |].
      by apply (alloc_ne al s x b).
    + unfold held, block_of. cbn. rewrite Hi. cbn. rewrite Hco. cbn.
      by rewrite lookup_insert_ne.
    + erewrite data_assign_run
        by (cbn; first [eassumption | apply lookup_insert_eq]). done.
    + by erewrite copy_assign_run.
    + cbn. apply held_assign_new. rewrite Hco. congruence.
    + intros old' Hold'. unfold block_of in Hold'. rewrite Hi in Hold'.
      cbn in Hold'. rewrite Hold' in *. simplify_eq. cbn.
      apply lookup_delete_eq.
Qed.

(** C2, amended: move construction from a wrapper W (whatever else the
    state holds, W alone included) and move assignment from W to any
    other wrapper allocate a new control block, at an address that was
    not live and so differs from the address of W's block, holding the
    value D's move constructor builds from W's; W keeps its own block,
    now holding the moved-from value, and stays non-empty: the has-value
    query is true and access succeeds. *)
Theorem move_allocates_and_keeps_source s w D v a :
  wf ct s → held s w = Some (Block D v) → block_of s w = Some a →
  heap s !! alloc al (dom (heap s)) = None
  ∧ alloc al (dom (heap s)) ≠ a
  ∧ (∃ w' s', indirect_move al ct w s = (Ret w', s') ∧ w' ≠ w
              ∧ moved ct s' w w' D v a (alloc al (dom (heap s))))
  ∧ (∀ t, is_Some (vars s !! t) → t ≠ w →
       ∃ s', move_assign al ct t w s = (Ret tt, s')
             ∧ moved ct s' w t D v a (alloc al (dom (heap s)))).
Proof.
  intros Hs Hw Ha.
  destruct (held_inv _ _ _ Hw) as (o & a' & Ho & Hc & Hb & Ha').
  assert (a' = a) as -> by congruence.
  pose proof (alloc_ne al s a _ Hb) as Hna.
  split_and!; [apply alloc_None | done | | intros t [i Hi] Hne].
  - pose proof (exec_op_wf al ct (Move w) s Hs) as Hs'. cbn in Hs'.
    rewrite (move_run al ct s w o Ho) in *.
    erewrite conv_move_run in * by done. cbn in *.
    pose proof (fresh_var_ne s w o Ho) as Hfw.
    eexists _, _. split_and!; [done | done |].
    lazymatch type of Hs' with
    | wf _ ?s1 =>
        assert (held s1 w = Some (Block D (move_ctor ct D v).2)) as Hold
    end.
    { erewrite held_insert_old; [apply lookup_insert_eq | done.. ]. }
    unfold moved. split_and!.
    + unfold block_of. cbn. by rewrite lookup_insert_eq.
    + apply held_insert_new.
    + unfold block_of. cbn. by rewrite lookup_insert_ne, Ho.
    + exact Hold.
    + by eapply has_value_held.
    + exact (star_held ct _ _ _ Hs' Hold).
  - pose proof (exec_op_wf al ct (MoveAssign t w) s Hs) as Hs'. cbn in Hs'.
    erewrite move_assign_run in * by done. cbn in *.
    destruct (wf_owner ct s t i Hs Hi) as (old & bo & Hco & Hbo & _).
    assert (old ≠ a) as Hoa.
    { eapply (wf_distinct_blocks ct s t w); [done.. | | done].
      unfold block_of. by rewrite Hi. }
    pose proof (alloc_ne al s old _ Hbo) as Hno.
    eexists. split; [done |].
    lazymatch type of Hs' with
    | wf _ ?s1 =>
        assert (held s1 w = Some (Block D (move_ctor ct D v).2)) as Hold
    end.
    { erewrite held_assign_old; [apply lookup_insert_eq | done.. |].
      rewrite Hco. congruence. }
    unfold moved. split_and!.
    + unfold block_of. cbn. by rewrite lookup_insert_eq.
    + apply held_assign_new. rewrite Hco. congruence.
    + unfold block_of. cbn. by rewrite lookup_insert_ne, Ho.
    + exact Hold.
    + by eapply has_value_held.
    + exact (star_held ct _ _ _ Hs' Hold).
Qed.

(** C5, amended: move-assigning a wrapper to itself leaves it holding
    a value: a new control block is allocated for the value D's move
    constructor builds from the old one, the wrapper takes that block
    over and the old block is released; the has-value query is true and
    access succeeds. *)
Theorem self_move_assign_keeps_value s w D v a :
  wf ct s → held s w = Some (Block D v) → block_of s w = Some a →
  self_move_result al ct s w D v a.
Proof.
  intros Hs Hw Ha. unfold self_move_result.
  destruct (held_inv _ _ _ Hw) as (o & a' & Ho & Hc & Hb & Ha').
  assert (a' = a) as -> by congruence.
  pose proof (alloc_ne al s a _ Hb) as Hna.
  pose proof (exec_op_wf al ct (MoveAssign w w) s Hs) as Hs'. cbn in Hs'.
  erewrite move_assign_run in * by done. rewrite Hc in *. cbn in *.
  eexists. split; [done |].
  lazymatch type of Hs' with
  | wf _ ?s1 =>
      assert (held s1 w = Some (Block D (move_ctor ct D v).1)) as Hnew
  end.
  { apply (held_assign_new _ _ _ _ _ _ _ (Some a)). congruence. }
  split_and!.
  - unfold block_of. cbn. by rewrite lookup_insert_eq.
  - done.
  - cbn. apply lookup_delete_eq.
  - exact Hnew.
  - by eapply has_value_held.
  - exact (star_held ct _ _ _ Hs' Hnew).
Qed.

(** C6, amended: copy-assigning a wrapper to itself leaves its value
    unchanged (for a class whose copy constructor reproduces the value)
    but not its address: the clone n is built in a state s1 where the old
    value is still held, then installed, and the old block is released,
    so the held object is afterwards at a newly allocated, different
    address. *)
Theorem self_copy_assign_reallocates s w D v a :
  wf ct s → held s w = Some (Block D v) → block_of s w = Some a →
  copy_ctor ct D v = Some v →
  self_copy_result al ct s w D v a.
Proof.
  intros Hs Hw Ha Hv. unfold self_copy_result.
  destruct (held_inv _ _ _ Hw) as (o & a' & Ho & Hc & Hb & Ha').
  assert (a' = a) as -> by congruence.
  pose proof (alloc_ne al s a _ Hb) as Hna.
  destruct (wf_view_ptr ct s w o a Hs Ho Hc) as [Hp _].
  pose proof (exec_op_wf al ct (CopyAssign w w) s Hs) as Hs'. cbn in Hs'.
  erewrite copy_assign_run in * by done. rewrite Hc in *. cbn in *.
  lazymatch type of Hs' with
  | wf _ ?s1 => assert (held s1 w = Some (Block D v)) as Hnew
  end.
  { apply (held_assign_new _ _ _ _ _ _ _ (Some a)). congruence. }
  eexists _, _, _. split_and!.
  - by eapply other_cb_copy_run.
  - unfold held, block_of. cbn. rewrite Ho. cbn. rewrite Hc. cbn.
    by rewrite lookup_insert_ne.
  - cbn. apply lookup_insert_eq.
  - erewrite data_assign_run
      by (cbn; first [eassumption | apply lookup_insert_eq]).
    by rewrite Hc.
  - done.
  - exact (star_held ct _ _ _ Hs' Hnew).
  - unfold block_of. cbn. by rewrite lookup_insert_eq.
  - done.
  - cbn. apply lookup_delete_eq.
  - unfold view_ptr. rewrite Ho. cbn. by rewrite Hp.
  - unfold view_ptr. cbn. by rewrite lookup_insert_eq.
Qed.

End Properties.

(** ** Requests: what they leave alone *)

Section Frames.
Context (al : allocator) (ct : class_table).

Implicit Types (s : state) (w this other t : nat) (W : list nat).

Lemma frames_reads {A} W (c : M A) : reads c → frames W c.
Proof. intros Hc s w i _ Hw. by rewrite Hc. Qed.

Lemma frames_bind {A B} W (c : M A) (k : A → M B) :
  frames W c → (∀ x, frames W (k x)) → frames W (c ≫= k).
Proof.
  intros Hc Hk s w i HW Hw. specialize (Hc s w i HW Hw). munfold.
  destruct (c s) as [[x | e |] s']; cbn in *; [by eapply Hk | done..].
Qed.

Lemma frames_put_heap W h : frames W (put_heap h).
Proof. by intros s w i _ Hw. Qed.

Lemma frames_make_unique W T v : frames W (make_unique al T v).
Proof. by intros s w i _ Hw. Qed.

Lemma frames_make_dcb W T ts : frames W (make_dcb al ct T ts).
Proof.
  unfold make_dcb. case_match; [apply frames_make_unique | by apply frames_reads].
Qed.

Lemma frames_make_dcb_copy W T v : frames W (make_dcb_copy al ct T v).
Proof.
  unfold make_dcb_copy.
  case_match; [apply frames_make_unique | by apply frames_reads].
Qed.

Lemma frames_cb_copy W a : frames W (cb_copy al ct a).
Proof.
  apply frames_bind; [apply frames_reads, reads_get_block |].
  intros b. apply frames_make_dcb_copy.
Qed.

Lemma frames_cb_move W a : frames W (cb_move al ct a).
Proof.
  apply frames_bind; [apply frames_reads, reads_get_block |].
  intros b. destruct (move_ctor ct (blk_cls b) (blk_t b)) as [v rest].
  apply frames_bind; [by apply frames_reads |]. intros h.
  apply frames_bind; [apply frames_put_heap |]. intros _.
  apply frames_make_unique.
Qed.

Lemma frames_other_cb_copy W w : frames W (other_cb_copy al ct w).
Proof.
  apply frames_bind; [apply frames_reads, reads_get_var |]. intros o.
  apply frames_bind; [by destruct (cb (m o)); apply frames_reads |].
  intros a. apply frames_cb_copy.
Qed.

Lemma frames_other_cb_move W w : frames W (other_cb_move al ct w).
Proof.
  apply frames_bind; [apply frames_reads, reads_get_var |]. intros o.
  apply frames_bind; [by destruct (cb (m o)); apply frames_reads |].
  intros a. apply frames_cb_move.
Qed.

Lemma frames_unique_reset W p : frames W (unique_reset p).
Proof.
  destruct p; cbn; [| by apply frames_reads].
  apply frames_bind; [by apply frames_reads |]. intros h.
  apply frames_put_heap.
Qed.

Lemma frames_set_ptr W w p : w ∈ W → frames W (set_ptr w p).
Proof.
  intros Hin s w' i HW Hw'. unfold set_ptr. munfold. cbn.
  destruct (vars s !! w); cbn; [| done].
  rewrite lookup_insert_ne; [done |]. by intros ->.
Qed.

Lemma frames_set_cb W w c : w ∈ W → frames W (set_cb w c).
Proof.
  intros Hin s w' i HW Hw'. unfold set_cb. munfold. cbn.
  destruct (vars s !! w); cbn; [| done].
  rewrite lookup_insert_ne; [done |]. by intros ->.
Qed.

Lemma frames_new_var W i : frames W (new_var i).
Proof.
  intros s w' i' _ Hw'. unfold new_var. munfold. cbn.
  rewrite lookup_insert_ne; [done |]. by apply fresh_var_ne in Hw'.
Qed.

Lemma frames_from_cb W T p : frames W (indirect_from_cb ct T p).
Proof.
  apply frames_bind; [| intros d; apply frames_new_var].
  apply frames_bind; [by destruct p; apply frames_reads |]. intros a.
  apply frames_bind; [| by intros; apply frames_reads].
  apply frames_bind; [apply frames_reads, reads_get_block |].
  by intros; apply frames_reads.
Qed.

Lemma frames_data_assign W this p :
  this ∈ W → frames W (data_assign ct this p).
Proof.
  intros Hin.
  apply frames_bind; [apply frames_reads, reads_get_var |]. intros i.
  apply frames_bind; [by destruct p; apply frames_reads |]. intros a.
  apply frames_bind.
  { apply frames_bind; [apply frames_reads, reads_get_block |].
    by intros; apply frames_reads. }
  intros q.
  apply frames_bind; [by apply frames_set_ptr |]. intros _.
  apply frames_bind; [by apply frames_set_cb |]. intros _.
  apply frames_unique_reset.
Qed.

Lemma frames_ctor W (p : M Z) T :
  frames W p → frames W (p ≫= λ n, indirect_from_cb ct T (Some n)).
Proof. intros Hp. apply frames_bind; [done |]. intros n. apply frames_from_cb. Qed.

Lemma frames_assign W (p : M Z) this :
  this ∈ W → frames W p →
  frames W (get_var this ≫= λ _, p ≫= λ n, data_assign ct this (Some n)).
Proof.
  intros Hin Hp. apply frames_bind; [apply frames_reads, reads_get_var |].
  intros _. apply frames_bind; [done |]. intros n.
  by apply frames_data_assign.
Qed.

Lemma frames_swap W w1 w2 : w1 ∈ W → w2 ∈ W → frames W (swap w1 w2).
Proof.
  intros H1 H2.
  apply frames_bind; [apply frames_reads, reads_get_var |]. intros a.
  apply frames_bind; [apply frames_reads, reads_get_var |]. intros b.
  apply frames_bind; [by apply frames_set_ptr |]. intros _.
  apply frames_bind; [by apply frames_set_ptr |]. intros _.
  apply frames_bind; [by apply frames_set_cb |]. intros _.
  by apply frames_set_cb.
Qed.

Lemma frames_destroy W this : this ∈ W → frames W (destroy this).
Proof.
  intros Hin s w i HW Hw. unfold destroy. munfold. cbn.
  destruct (vars s !! this) as [j |]; cbn; [| done].
  assert (delete this (vars s) !! w = Some i) as Hdel.
  { rewrite lookup_delete_ne; [done |]. by intros ->. }
  by destruct (cb (m j)).
Qed.

Lemma frames_modify_at W p g : frames W (modify_at ct p g).
Proof.
  apply frames_bind; [apply frames_reads, reads_pointee |]. intros b.
  apply frames_bind; [by apply frames_reads |]. intros h.
  apply frames_put_heap.
Qed.

Lemma frames_exec_op o : ∀ s w i,
  w ∉ targets o → vars s !! w = Some i →
  vars (exec_op al ct o s) !! w = Some i.
Proof.
  destruct o; cbn [exec_op targets].
  - apply frames_ctor, frames_make_dcb.
  - apply frames_ctor, frames_make_dcb.
  - apply frames_ctor, frames_make_dcb.
  - apply frames_bind; [apply frames_reads, reads_get_var |]. intros o.
    apply frames_ctor, frames_other_cb_copy.
  - apply frames_bind; [apply frames_reads, reads_get_var |]. intros o.
    apply frames_ctor, frames_other_cb_move.
  - apply frames_ctor, frames_other_cb_copy.
  - apply frames_ctor, frames_other_cb_move.
  - apply frames_assign; [set_solver | apply frames_other_cb_copy].
  - apply frames_assign; [set_solver | apply frames_other_cb_move].
  - apply frames_ctor, frames_make_dcb_copy.
  - apply frames_ctor, frames_make_unique.
  - apply frames_assign; [set_solver | apply frames_make_dcb_copy].
  - apply frames_assign; [set_solver | apply frames_make_unique].
  - apply frames_swap; set_solver.
  - apply frames_reads, reads_arrow.
  - apply frames_reads, reads_star.
  - apply frames_reads, reads_member.
  - apply frames_bind; [apply frames_reads, reads_arrow |]. intros p.
    apply frames_modify_at.
  - apply frames_bind; [apply frames_reads, reads_try_static_cast |].
    intros _. apply frames_ctor, frames_other_cb_copy.
  - apply frames_bind; [apply frames_reads, reads_try_static_cast |].
    intros _. apply frames_ctor, frames_other_cb_move.
  - apply frames_bind; [apply frames_reads, reads_try_dynamic_cast |].
    intros _.
    apply frames_bind; [apply frames_reads, reads_try_static_cast |].
    intros _. apply frames_ctor, frames_other_cb_copy.
  - apply frames_bind; [apply frames_reads, reads_try_dynamic_cast |].
    intros _.
    apply frames_bind; [apply frames_reads, reads_try_static_cast |].
    intros _. apply frames_ctor, frames_other_cb_move.
  - apply frames_destroy. set_solver.
Qed.

End Frames.

(** ** Requests: blocks and wrappers stay paired *)

Section Counting.
Context (al : allocator) (ct : class_table).

Implicit Types (s : state) (w this other t : nat) (a n : Z).

Lemma allocates_reads_bind {A} (c : M A) (k : A → M Z) :
  reads c → (∀ x, allocates (k x)) → allocates (c ≫= k).
Proof.
  intros Hc Hk s. specialize (Hc s). munfold.
  destruct (c s) as [[x | e |] s'] eqn:Hcs; cbn in *; subst; [| done..].
  apply Hk.
Qed.

Lemma allocates_throw e : allocates (throw e).
Proof. by intros s. Qed.

Lemma allocates_undefined : allocates undefined.
Proof. by intros s. Qed.

Lemma allocates_make_unique T v : allocates (make_unique al T v).
Proof.
  intros s. rewrite make_unique_run. cbn.
  split_and!; [apply alloc_fresh | apply dom_insert_L | done].
Qed.

Lemma allocates_make_dcb T ts : allocates (make_dcb al ct T ts).
Proof.
  unfold make_dcb.
  case_match; [apply allocates_make_unique | apply allocates_throw].
Qed.

Lemma allocates_make_dcb_copy T v : allocates (make_dcb_copy al ct T v).
Proof.
  unfold make_dcb_copy.
  case_match; [apply allocates_make_unique | apply allocates_throw].
Qed.

Lemma allocates_cb_copy a : allocates (cb_copy al ct a).
Proof.
  apply allocates_reads_bind; [apply reads_get_block |].
  intros b. apply allocates_make_dcb_copy.
Qed.

Lemma allocates_cb_move a : allocates (cb_move al ct a).
Proof.
  intros s. destruct (heap s !! a) as [b |] eqn:Ha.
  - rewrite (cb_move_run al ct _ _ _ Ha). cbn.
    split_and!; [apply alloc_fresh | | done].
    rewrite !dom_insert_L. f_equal.
    apply subseteq_union_1_L, singleton_subseteq_l. by eapply elem_of_dom_2.
  - unfold cb_move. munfold. cbn. by rewrite Ha.
Qed.

Lemma allocates_other_cb_copy w : allocates (other_cb_copy al ct w).
Proof.
  apply allocates_reads_bind; [apply reads_get_var |]. intros o.
  destruct (cb (m o)); cbn;
    [apply allocates_cb_copy | apply allocates_undefined].
Qed.

Lemma allocates_other_cb_move w : allocates (other_cb_move al ct w).
Proof.
  apply allocates_reads_bind; [apply reads_get_var |]. intros o.
  destruct (cb (m o)); cbn;
    [apply allocates_cb_move | apply allocates_undefined].
Qed.

Lemma block_of_insert_ne (h h' : gmap Z block) (v : gmap nat indirect) w w' x :
  w ≠ w' → block_of (State h' (<[w' := x]> v)) w = block_of (State h v) w.
Proof. intros Hne. unfold block_of. cbn. by rewrite lookup_insert_ne. Qed.

Lemma block_of_exists s w a :
  block_of s w = Some a → ∃ i, vars s !! w = Some i ∧ cb (m i) = Some a.
Proof.
  unfold block_of. destruct (vars s !! w) as [i |]; [| done]. cbn. eauto.
Qed.

Lemma counted_reads_bind {A B} (c : M A) (k : A → M B) :
  reads c →
  (∀ x s, wf ct s → counted s → counted (k x s).2) →
  ∀ s, wf ct s → counted s → counted ((c ≫= k) s).2.
Proof.
  intros Hc Hk s Hs Hcnt. specialize (Hc s). munfold.
  destruct (c s) as [[x | e |] s']; cbn in *; subst; [by apply Hk | done..].
Qed.

Lemma counted_from_cb (p : M Z) T :
  allocates p →
  ∀ s, wf ct s → counted s →
    counted ((p ≫= λ n, indirect_from_cb ct T (Some n)) s).2.
Proof.
  intros Hp s Hs [Hown Hsz]. specialize (Hp s). munfold.
  destruct (p s) as [[n | e |] s1]; cbn -[indirect_from_cb]; subst;
    [| done..].
  destruct Hp as (Hn & Hdom & Hv).
  assert (is_Some (heap s1 !! n)) as [b Hb].
  { apply elem_of_dom. rewrite Hdom. by apply elem_of_union_l, elem_of_singleton. }
  rewrite (from_cb_run ct s1 T n b Hb). cbn. rewrite Hv.
  assert (vars s !! fresh (dom (vars s)) = None) as Hfresh
    by apply not_elem_of_dom, is_fresh.
  split.
  - intros a Ha. cbn in Ha. rewrite Hdom in Ha.
    apply elem_of_union in Ha as [->%elem_of_singleton | Ha].
    + exists (fresh (dom (vars s))). unfold block_of. cbn.
      by rewrite lookup_insert_eq.
    + destruct (Hown a Ha) as [w Hw]. exists w.
      destruct (block_of_exists _ _ _ Hw) as (i & Hi & _).
      rewrite (block_of_insert_ne (heap s)); [by destruct s |].
      intros ->. congruence.
  - cbn. rewrite map_size_insert_None by done.
    rewrite <-(size_dom (heap s1)), Hdom, size_union, size_singleton, size_dom
      by by apply disjoint_singleton_l.
    by rewrite Hsz.
Qed.

Lemma counted_assign (p : M Z) this :
  allocates p →
  ∀ s, wf ct s → counted s →
    counted ((get_var this ≫= λ _, p ≫= λ n, data_assign ct this (Some n)) s).2.
Proof.
  intros Hp s Hs [Hown Hsz]. destruct (vars s !! this) as [i |] eqn:Hi.
  - erewrite bind_run by by apply get_var_run.
    specialize (Hp s). munfold.
    destruct (p s) as [[n | e |] s1]; cbn -[data_assign]; subst; [| done..].
    destruct Hp as (Hn & Hdom & Hv).
    assert (is_Some (heap s1 !! n)) as [b Hb].
    { apply elem_of_dom. rewrite Hdom. by apply elem_of_union_l, elem_of_singleton. }
    erewrite data_assign_run; [| by rewrite Hv | done]. cbn. rewrite Hv.
    destruct (wf_owner ct s this i Hs Hi) as (old & bo & Hco & Hbo & _).
    rewrite Hco. cbn.
    assert (old ∈ dom (heap s)) as Hold by by eapply elem_of_dom_2.
    assert (old ≠ n) as Hon by by intros ->.
    split.
    + intros a Ha. cbn in Ha. rewrite dom_delete_L, Hdom in Ha.
      apply elem_of_difference in Ha as [Ha Hao].
      apply elem_of_union in Ha as [->%elem_of_singleton | Ha].
      * exists this. unfold block_of. cbn. by rewrite lookup_insert_eq.
      * destruct (Hown a Ha) as [w Hw]. exists w.
        destruct (block_of_exists _ _ _ Hw) as (j & Hj & Hcj).
        rewrite (block_of_insert_ne (heap s)); [by destruct s |].
        intros ->. assert (j = i) as -> by congruence.
        apply Hao, elem_of_singleton. congruence.
    + cbn. rewrite map_size_insert_Some by done.
      rewrite map_size_delete_Some.
      * rewrite <-(size_dom (heap s1)), Hdom, size_union, size_singleton,
          size_dom by by apply disjoint_singleton_l.
        by rewrite Hsz.
      * apply elem_of_dom. rewrite Hdom. by apply elem_of_union_r.
  - by erewrite bind_undefined by by apply get_var_none.
Qed.

Lemma counted_swap w1 w2 s :
  wf ct s → counted s → counted (swap w1 w2 s).2.
Proof.
  intros Hs [Hown Hsz].
  destruct (vars s !! w1) as [i1 |] eqn:H1;
    [| by (unfold swap; erewrite bind_undefined by by apply get_var_none)].
  destruct (vars s !! w2) as [i2 |] eqn:H2; cycle 1.
  { unfold swap. erewrite bind_run by by apply get_var_run.
    by erewrite bind_undefined by by apply get_var_none. }
  erewrite swap_run by done. cbn. split.
  - intros a Ha. cbn in Ha. destruct (Hown a Ha) as [w Hw].
    destruct (block_of_exists _ _ _ Hw) as (j & Hj & Hcj).
    destruct (decide (w = w1)) as [-> | Hn1].
    + exists w2. unfold block_of. cbn. rewrite lookup_insert_eq. cbn.
      congruence.
    + destruct (decide (w = w2)) as [-> | Hn2].
      * exists w1. unfold block_of. cbn.
        destruct (decide (w1 = w2)) as [-> | Hn12]; [done |].
        rewrite lookup_insert_ne, lookup_insert_eq by done. cbn. congruence.
      * exists w. unfold block_of. cbn.
        by rewrite !lookup_insert_ne, Hj by done.
  - cbn. rewrite map_size_insert_Some.
    + by rewrite map_size_insert_Some.
    + destruct (decide (w1 = w2)) as [-> | Hn12].
      * by rewrite lookup_insert_eq.
      * by rewrite lookup_insert_ne, H2.
Qed.

Lemma counted_destroy this s :
  wf ct s → counted s → counted (destroy this s).2.
Proof.
  intros Hs [Hown Hsz]. destruct (vars s !! this) as [i |] eqn:Hi.
  - erewrite destroy_run by done. cbn.
    destruct (wf_owner ct s this i Hs Hi) as (old & bo & Hco & Hbo & _).
    rewrite Hco. cbn. split.
    + intros a Ha. cbn in Ha. rewrite dom_delete_L in Ha.
      apply elem_of_difference in Ha as [Ha Hao].
      destruct (Hown a Ha) as [w Hw]. exists w.
      destruct (block_of_exists _ _ _ Hw) as (j & Hj & Hcj).
      unfold block_of. cbn. rewrite lookup_delete_ne, Hj; [done |].
      intros ->. assert (j = i) as -> by congruence.
      apply Hao, elem_of_singleton. congruence.
    + cbn. rewrite !map_size_delete_Some by done. by rewrite Hsz.
  - unfold destroy. by erewrite bind_undefined by by apply get_var_none.
Qed.

Lemma counted_modify_at p g s :
  counted s → counted (modify_at ct p g s).2.
Proof.
  intros [Hown Hsz]. destruct (decide (p = 0)) as [-> | Hp]; [done |].
  destruct (heap s !! (p - t_offset ct)) as [b |] eqn:Hb.
  - erewrite modify_at_run by done. cbn. split.
    + intros a Ha. cbn in Ha. rewrite dom_insert_L in Ha.
      assert (a ∈ dom (heap s)) as Ha'.
      { apply elem_of_union in Ha as [->%elem_of_singleton | Ha]; [| done].
        by eapply elem_of_dom_2. }
      destruct (Hown a Ha') as [w Hw]. by exists w.
    + cbn. by rewrite map_size_insert_Some.
  - unfold modify_at, pointee. rewrite decide_False by done.
    munfold. cbn. by rewrite Hb.
Qed.

Lemma exec_op_counted o s :
  wf ct s → counted s → counted (exec_op al ct o s).
Proof.
  destruct o; cbn [exec_op]; revert s.
  - apply counted_from_cb, allocates_make_dcb.
  - apply counted_from_cb, allocates_make_dcb.
  - apply counted_from_cb, allocates_make_dcb.
  - apply counted_reads_bind; [apply reads_get_var |]. intros o.
    apply counted_from_cb, allocates_other_cb_copy.
  - apply counted_reads_bind; [apply reads_get_var |]. intros o.
    apply counted_from_cb, allocates_other_cb_move.
  - apply counted_from_cb, allocates_other_cb_copy.
  - apply counted_from_cb, allocates_other_cb_move.
  - apply counted_assign, allocates_other_cb_copy.
  - apply counted_assign, allocates_other_cb_move.
  - apply counted_from_cb, allocates_make_dcb_copy.
  - apply counted_from_cb, allocates_make_unique.
  - apply counted_assign, allocates_make_dcb_copy.
  - apply counted_assign, allocates_make_unique.
  - intros s. apply counted_swap.
  - intros s _ H. by rewrite reads_arrow.
  - intros s _ H. by rewrite reads_star.
  - intros s _ H. by rewrite reads_member.
  - apply counted_reads_bind; [apply reads_arrow |]. intros p s _.
    apply counted_modify_at.
  - apply counted_reads_bind; [apply reads_try_static_cast |]. intros _.
    apply counted_from_cb, allocates_other_cb_copy.
  - apply counted_reads_bind; [apply reads_try_static_cast |]. intros _.
    apply counted_from_cb, allocates_other_cb_move.
  - apply counted_reads_bind; [apply reads_try_dynamic_cast |]. intros _.
    apply counted_reads_bind; [apply reads_try_static_cast |]. intros _.
    apply counted_from_cb, allocates_other_cb_copy.
  - apply counted_reads_bind; [apply reads_try_dynamic_cast |]. intros _.
    apply counted_reads_bind; [apply reads_try_static_cast |]. intros _.
    apply counted_from_cb, allocates_other_cb_move.
  - intros s. apply counted_destroy.
Qed.

Lemma run_counted ops s :
  wf ct s → counted s → wf ct (run al ct ops s) ∧ counted (run al ct ops s).
Proof.
  revert s. induction ops as [| o ops IH]; intros s Hs Hc; [done |].
  cbn. apply IH; [by apply exec_op_wf | by apply exec_op_counted].
Qed.

Lemma counted_empty : counted (State ∅ ∅).
Proof.
  split; [| done]. intros a Ha. cbn in Ha. by rewrite dom_empty_L in Ha.
Qed.

End Counting.

(** ** Requests: no undefined behaviour *)

Section Defined.
Context (al : allocator) (ct : class_table).

Implicit Types (s : state) (w this other t : nat) (a n : Z).

Lemma forget_defined {A} (c : M A) s :
  defined c s → forget (c s).1 ≠ Undefined.
Proof. unfold defined. by destruct (c s).1. Qed.

Lemma defined_ctor (p : M Z) T s :
  produces ct p → wf ct s → defined p s →
  defined (p ≫= λ n, indirect_from_cb ct T (Some n)) s.
Proof.
  intros Hp Hs Hd. specialize (Hp s Hs). unfold defined in *. munfold.
  destruct (p s) as [[n | e |] s1]; cbn -[indirect_from_cb] in *;
    [| done..].
  destruct Hp as (h & b & _ & _ & _ & ->).
  by erewrite from_cb_run by (cbn; apply lookup_insert_eq).
Qed.

Lemma defined_assign (p : M Z) this s :
  produces ct p → wf ct s → is_Some (vars s !! this) → defined p s →
  defined (get_var this ≫= λ _, p ≫= λ n, data_assign ct this (Some n)) s.
Proof.
  intros Hp Hs [i Hi] Hd. specialize (Hp s Hs). unfold defined in *.
  erewrite bind_run by by apply get_var_run. munfold.
  destruct (p s) as [[n | e |] s1]; cbn -[data_assign] in *; [| done..].
  destruct Hp as (h & b & _ & _ & _ & ->).
  by erewrite data_assign_run
    by (cbn; first [eassumption | apply lookup_insert_eq]).
Qed.

Lemma defined_make_unique T v s : defined (make_unique al T v) s.
Proof. done. Qed.

Lemma defined_make_dcb T ts s : defined (make_dcb al ct T ts) s.
Proof. unfold defined, make_dcb. by case_match. Qed.

Lemma defined_make_dcb_copy T v s : defined (make_dcb_copy al ct T v) s.
Proof. unfold defined, make_dcb_copy. by case_match. Qed.

Lemma defined_other_cb_copy w s :
  wf ct s → is_Some (vars s !! w) → defined (other_cb_copy al ct w) s.
Proof.
  intros Hs [o Ho].
  destruct (wf_owner ct s w o Hs Ho) as (a & b & Hc & Hb & _).
  unfold defined.
  destruct (copy_ctor ct (blk_cls b) (blk_t b)) as [v |] eqn:Hv.
  - by erewrite other_cb_copy_run.
  - by erewrite other_cb_copy_throw.
Qed.

Lemma defined_other_cb_move w s :
  wf ct s → is_Some (vars s !! w) → defined (other_cb_move al ct w) s.
Proof.
  intros Hs [o Ho].
  destruct (wf_owner ct s w o Hs Ho) as (a & b & Hc & Hb & _).
  unfold defined. by erewrite other_cb_move_run.
Qed.

Lemma try_static_cast_run U w s :
  is_Some (vars s !! w) → try_static_cast U w s = (Ret tt, s).
Proof.
  intros [i Hi]. unfold try_static_cast.
  by erewrite bind_run by by apply get_var_run.
Qed.

Lemma defined_op s o :
  wf ct s → Forall (λ w, is_Some (vars s !! w)) (refs o) →
  (∀ w f, o ≠ Member w f) →
  op_outcome al ct o s ≠ Undefined.
Proof.
  intros Hs Hrefs Hmem.
  destruct o; cbn [op_outcome refs] in *; apply forget_defined;
    repeat match goal with
    | H : Forall _ (_ :: _) |- _ => apply Forall_cons in H as [? H]
    | H : Forall _ [] |- _ => clear H
    end.
  - by apply defined_ctor; [apply produces_make_dcb | | apply defined_make_dcb].
  - by apply defined_ctor; [apply produces_make_dcb | | apply defined_make_dcb].
  - by apply defined_ctor; [apply produces_make_dcb | | apply defined_make_dcb].
  - destruct H as [i Hi]. unfold defined.
    rewrite (copy_run al ct s other i Hi).
    apply defined_ctor; [apply produces_other_cb_copy | done |].
    by apply defined_other_cb_copy.
  - destruct H as [i Hi]. unfold defined.
    rewrite (move_run al ct s other i Hi).
    apply defined_ctor; [apply produces_other_cb_move | done |].
    by apply defined_other_cb_move.
  - apply defined_ctor; [apply produces_other_cb_copy | done |].
    by apply defined_other_cb_copy.
  - apply defined_ctor; [apply produces_other_cb_move | done |].
    by apply defined_other_cb_move.
  - apply defined_assign; [apply produces_other_cb_copy | done.. |].
    by apply defined_other_cb_copy.
  - apply defined_assign; [apply produces_other_cb_move | done.. |].
    by apply defined_other_cb_move.
  - by apply defined_ctor;
      [apply produces_make_dcb_copy | | apply defined_make_dcb_copy].
  - by apply defined_ctor;
      [apply produces_make_unique | | apply defined_make_unique].
  - by apply defined_assign;
      [apply produces_make_dcb_copy | | | apply defined_make_dcb_copy].
  - by apply defined_assign;
      [apply produces_make_unique | | | apply defined_make_unique].
  - destruct H as [i1 H1], H0 as [i2 H2]. unfold defined.
    by erewrite swap_run.
  - destruct H as [i Hi]. unfold defined, arrow.
    by erewrite bind_run by by apply get_var_run.
  - destruct H as [i Hi].
    destruct (wf_owner ct s this i Hs Hi) as (a & b & Hc & Hb & Hp & Hnz).
    unfold defined. by erewrite star_run.
  - by destruct (Hmem this f).
  - destruct H as [i Hi].
    destruct (wf_owner ct s this i Hs Hi) as (a & b & Hc & Hb & Hp & Hnz).
    unfold defined. erewrite mutate_held; [done | done | | ].
    + by eapply held_intro.
    + unfold block_of. by rewrite Hi.
  - unfold defined, static_indirect_cast.
    erewrite bind_run by by apply try_static_cast_run.
    apply defined_ctor; [apply produces_other_cb_copy | done |].
    by apply defined_other_cb_copy.
  - unfold defined, static_indirect_cast_move.
    erewrite bind_run by by apply try_static_cast_run.
    apply defined_ctor; [apply produces_other_cb_move | done |].
    by apply defined_other_cb_move.
  - unfold defined, dynamic_indirect_cast, static_indirect_cast.
    destruct (try_dynamic_cast_cases ct s T i Hs H) as [Hd | Hd].
    + erewrite bind_run by exact Hd.
      erewrite bind_run by by apply try_static_cast_run.
      apply defined_ctor; [apply produces_other_cb_copy | done |].
      by apply defined_other_cb_copy.
    + by erewrite bind_throw by exact Hd.
  - unfold defined, dynamic_indirect_cast_move, static_indirect_cast_move.
    destruct (try_dynamic_cast_cases ct s T i Hs H) as [Hd | Hd].
    + erewrite bind_run by exact Hd.
      erewrite bind_run by by apply try_static_cast_run.
      apply defined_ctor; [apply produces_other_cb_move | done |].
      by apply defined_other_cb_move.
    + by erewrite bind_throw by exact Hd.
  - destruct H as [i Hi]. unfold defined. by erewrite destroy_run.
Qed.

End Defined.

(** ** Requests: constructions and copies only add *)

Section Grows.
Context (al : allocator) (ct : class_table).

Lemma grows_reads {A} (c : M A) : reads c → grows c.
Proof. intros Hc s. by rewrite Hc. Qed.

Lemma grows_bind {A B} (c : M A) (k : A → M B) :
  grows c → (∀ x, grows (k x)) → grows (c ≫= k).
Proof.
  intros Hc Hk s. destruct (Hc s) as [Hh Hv]. munfold.
  destruct (c s) as [[x | e |] s']; cbn in *; [| done..].
  destruct (Hk x s') as [Hh' Hv']. split; by etrans.
Qed.

Lemma grows_make_unique T v : grows (make_unique al T v).
Proof.
  intros s. rewrite make_unique_run. cbn. split; [| done].
  apply insert_subseteq, alloc_None.
Qed.

Lemma grows_make_dcb T ts : grows (make_dcb al ct T ts).
Proof.
  unfold make_dcb. case_match; [apply grows_make_unique | by apply grows_reads].
Qed.

Lemma grows_make_dcb_copy T v : grows (make_dcb_copy al ct T v).
Proof.
  unfold make_dcb_copy.
  case_match; [apply grows_make_unique | by apply grows_reads].
Qed.

Lemma grows_other_cb_copy w : grows (other_cb_copy al ct w).
Proof.
  apply grows_bind; [apply grows_reads, reads_get_var |]. intros o.
  apply grows_bind; [by destruct (cb (m o)); apply grows_reads |]. intros a.
  apply grows_bind; [apply grows_reads, reads_get_block |]. intros b.
  apply grows_make_dcb_copy.
Qed.

Lemma grows_new_var i : grows (new_var i).
Proof.
  intros s. unfold new_var. munfold. cbn. split; [done |].
  apply insert_subseteq, not_elem_of_dom, is_fresh.
Qed.

Lemma grows_from_cb T p : grows (indirect_from_cb ct T p).
Proof.
  apply grows_bind; [| intros d; apply grows_new_var].
  apply grows_bind; [by destruct p; apply grows_reads |]. intros a.
  apply grows_bind; [| by intros; apply grows_reads].
  apply grows_bind; [apply grows_reads, reads_get_block |].
  by intros; apply grows_reads.
Qed.

Lemma grows_ctor (p : M Z) T :
  grows p → grows (p ≫= λ n, indirect_from_cb ct T (Some n)).
Proof. intros Hp. apply grows_bind; [done |]. intros n. apply grows_from_cb. Qed.

Lemma grows_exec_op o s :
  only_adds o = true →
  heap s ⊆ heap (exec_op al ct o s) ∧ vars s ⊆ vars (exec_op al ct o s).
Proof.
  destruct o; cbn [only_adds exec_op]; intros Ho; try done; revert s.
  - apply grows_ctor, grows_make_dcb.
  - apply grows_ctor, grows_make_dcb.
  - apply grows_ctor, grows_make_dcb.
  - apply grows_bind; [apply grows_reads, reads_get_var |]. intros o.
    apply grows_ctor, grows_other_cb_copy.
  - apply grows_ctor, grows_other_cb_copy.
  - apply grows_ctor, grows_make_dcb_copy.
  - apply grows_ctor, grows_make_unique.
  - apply grows_reads, reads_arrow.
  - apply grows_reads, reads_star.
  - apply grows_reads, reads_member.
  - apply grows_bind; [apply grows_reads, reads_try_static_cast |].
    intros _. apply grows_ctor, grows_other_cb_copy.
  - apply grows_bind; [apply grows_reads, reads_try_dynamic_cast |].
    intros _.
    apply grows_bind; [apply grows_reads, reads_try_static_cast |].
    intros _. apply grows_ctor, grows_other_cb_copy.
Qed.

End Grows.

(** ** Requests: what a throw leaves *)

Section Throws.
Context (al : allocator) (ct : class_table).

Lemma nothrow_bind {A B} (c : M A) (k : A → M B) :
  nothrow c → (∀ x, nothrow (k x)) → nothrow (c ≫= k).
Proof.
  intros Hc Hk s e. specialize (Hc s). munfold.
  destruct (c s) as [[x | e' |] s']; cbn in *; [apply Hk | | done].
  by destruct (Hc e').
Qed.

Lemma nothrow_get_var w : nothrow (get_var w).
Proof. intros s e. munfold. cbn. by destruct (vars s !! w). Qed.

Lemma nothrow_get_block a : nothrow (get_block a).
Proof. intros s e. munfold. cbn. by destruct (heap s !! a). Qed.

Lemma nothrow_unique_deref p : nothrow (unique_deref p).
Proof. by destruct p. Qed.

Lemma nothrow_unique_reset p : nothrow (unique_reset p).
Proof. by destruct p. Qed.

Lemma nothrow_pointee p : nothrow (pointee ct p).
Proof. unfold pointee. case_decide; [done | apply nothrow_get_block]. Qed.

Lemma nothrow_make_unique T v : nothrow (make_unique al T v).
Proof. done. Qed.

Lemma nothrow_cb_ptr a : nothrow (cb_ptr ct a).
Proof. apply nothrow_bind; [apply nothrow_get_block | done]. Qed.

Lemma nothrow_set_ptr w p : nothrow (set_ptr w p).
Proof. apply nothrow_bind; [apply nothrow_get_var | done]. Qed.

Lemma nothrow_set_cb w c : nothrow (set_cb w c).
Proof. apply nothrow_bind; [apply nothrow_get_var | done]. Qed.

Lemma nothrow_from_cb T p : nothrow (indirect_from_cb ct T p).
Proof.
  apply nothrow_bind; [| done].
  apply nothrow_bind; [apply nothrow_unique_deref |]. intros a.
  apply nothrow_bind; [apply nothrow_cb_ptr | done].
Qed.

Lemma nothrow_data_assign this p : nothrow (data_assign ct this p).
Proof.
  apply nothrow_bind; [apply nothrow_get_var |]. intros i.
  apply nothrow_bind; [apply nothrow_unique_deref |]. intros a.
  apply nothrow_bind; [apply nothrow_cb_ptr |]. intros q.
  apply nothrow_bind; [apply nothrow_set_ptr |]. intros _.
  apply nothrow_bind; [apply nothrow_set_cb |]. intros _.
  apply nothrow_unique_reset.
Qed.

Lemma nothrow_cb_move a : nothrow (cb_move al ct a).
Proof.
  apply nothrow_bind; [apply nothrow_get_block |]. intros b.
  by destruct (move_ctor ct (blk_cls b) (blk_t b)).
Qed.

Lemma nothrow_other_cb_move w : nothrow (other_cb_move al ct w).
Proof.
  apply nothrow_bind; [apply nothrow_get_var |]. intros o.
  apply nothrow_bind; [apply nothrow_unique_deref |]. intros a.
  apply nothrow_cb_move.
Qed.

Lemma nothrow_swap w1 w2 : nothrow (swap w1 w2).
Proof.
  apply nothrow_bind; [apply nothrow_get_var |]. intros a.
  apply nothrow_bind; [apply nothrow_get_var |]. intros b.
  apply nothrow_bind; [apply nothrow_set_ptr |]. intros _.
  apply nothrow_bind; [apply nothrow_set_ptr |]. intros _.
  apply nothrow_bind; [apply nothrow_set_cb |]. intros _.
  apply nothrow_set_cb.
Qed.

Lemma nothrow_destroy this : nothrow (destroy this).
Proof.
  apply nothrow_bind; [apply nothrow_get_var |]. intros i.
  apply nothrow_bind; [done |]. intros v.
  apply nothrow_bind; [done |]. intros _. apply nothrow_unique_reset.
Qed.

Lemma nothrow_arrow w : nothrow (arrow w).
Proof. apply nothrow_bind; [apply nothrow_get_var | done]. Qed.

Lemma nothrow_star w : nothrow (star ct w).
Proof.
  apply nothrow_bind; [apply nothrow_get_var |]. intros i.
  apply nothrow_bind; [apply nothrow_pointee | done].
Qed.

Lemma nothrow_member w f : nothrow (member ct w f).
Proof.
  apply nothrow_bind; [apply nothrow_get_var |]. intros i.
  apply nothrow_bind; [apply nothrow_pointee |]. intros b.
  by repeat case_match.
Qed.

Lemma nothrow_mutate w g : nothrow (mutate ct w g).
Proof.
  apply nothrow_bind; [apply nothrow_arrow |]. intros p.
  apply nothrow_bind; [apply nothrow_pointee | done].
Qed.

Lemma nothrow_try_static_cast U w : nothrow (try_static_cast U w).
Proof. apply nothrow_bind; [apply nothrow_get_var | done]. Qed.

Lemma nothrow_strong {A} (c : M A) : nothrow c → strong c.
Proof. intros Hc s e He. by destruct (Hc s e). Qed.

Lemma nothrow_nocast {A} (c : M A) : nothrow c → nocast c.
Proof. intros Hc s. apply Hc. Qed.

Lemma strong_bind_reads {A B} (c : M A) (k : A → M B) :
  reads c → (∀ x, strong (k x)) → strong (c ≫= k).
Proof.
  intros Hc Hk s e. specialize (Hc s). munfold.
  destruct (c s) as [[x | e' |] s']; cbn in *; subst; [apply Hk | done..].
Qed.

Lemma strong_bind_nothrow {A B} (c : M A) (k : A → M B) :
  strong c → (∀ x, nothrow (k x)) → strong (c ≫= k).
Proof.
  intros Hc Hk s e. specialize (Hc s). munfold.
  destruct (c s) as [[x | e' |] s']; cbn in *; [| by eauto | done].
  intros He. by destruct (Hk x s' e).
Qed.

Lemma nocast_bind {A B} (c : M A) (k : A → M B) :
  nocast c → (∀ x, nocast (k x)) → nocast (c ≫= k).
Proof.
  intros Hc Hk s. specialize (Hc s). munfold.
  destruct (c s) as [[x | e' |] s']; cbn in *; [apply Hk | | done].
  intros [= ->]. by destruct Hc.
Qed.

Lemma strong_make_dcb T ts : strong (make_dcb al ct T ts).
Proof. unfold make_dcb. by case_match. Qed.

Lemma strong_make_dcb_copy T v : strong (make_dcb_copy al ct T v).
Proof. unfold make_dcb_copy. by case_match. Qed.

Lemma strong_other_cb_copy w : strong (other_cb_copy al ct w).
Proof.
  apply strong_bind_reads; [apply reads_get_var |]. intros o.
  apply strong_bind_reads; [by destruct (cb (m o)) |]. intros a.
  apply strong_bind_reads; [apply reads_get_block |]. intros b.
  apply strong_make_dcb_copy.
Qed.

Lemma nocast_make_dcb T ts : nocast (make_dcb al ct T ts).
Proof. unfold make_dcb. by case_match. Qed.

Lemma nocast_make_dcb_copy T v : nocast (make_dcb_copy al ct T v).
Proof. unfold make_dcb_copy. by case_match. Qed.

Lemma nocast_other_cb_copy w : nocast (other_cb_copy al ct w).
Proof.
  apply nocast_bind; [apply nothrow_nocast, nothrow_get_var |]. intros o.
  apply nocast_bind; [apply nothrow_nocast, nothrow_unique_deref |].
  intros a.
  apply nocast_bind; [apply nothrow_nocast, nothrow_get_block |]. intros b.
  apply nocast_make_dcb_copy.
Qed.

Lemma strong_ctor (p : M Z) T :
  strong p → strong (p ≫= λ n, indirect_from_cb ct T (Some n)).
Proof.
  intros Hp. apply strong_bind_nothrow; [done |]. intros n.
  apply nothrow_from_cb.
Qed.

Lemma strong_assign (p : M Z) this :
  strong p →
  strong (get_var this ≫= λ _, p ≫= λ n, data_assign ct this (Some n)).
Proof.
  intros Hp. apply strong_bind_reads; [apply reads_get_var |]. intros _.
  apply strong_bind_nothrow; [done |]. intros n. apply nothrow_data_assign.
Qed.

Lemma nocast_ctor (p : M Z) T :
  nocast p → nocast (p ≫= λ n, indirect_from_cb ct T (Some n)).
Proof.
  intros Hp. apply nocast_bind; [done |]. intros n.
  apply nothrow_nocast, nothrow_from_cb.
Qed.

Lemma nocast_assign (p : M Z) this :
  nocast p →
  nocast (get_var this ≫= λ _, p ≫= λ n, data_assign ct this (Some n)).
Proof.
  intros Hp. apply nocast_bind; [apply nothrow_nocast, nothrow_get_var |].
  intros _. apply nocast_bind; [done |]. intros n.
  apply nothrow_nocast, nothrow_data_assign.
Qed.

Lemma forget_throw {A} (x : outcome A) e : forget x = Throw e → x = Throw e.
Proof. destruct x; cbn; intros H; by simplify_eq. Qed.

Lemma strong_exec_op o s e :
  op_outcome al ct o s = Throw e → exec_op al ct o s = s.
Proof.
  destruct o; cbn [op_outcome exec_op]; intros He%forget_throw;
    revert s e He.
  - apply strong_ctor, strong_make_dcb.
  - apply strong_ctor, strong_make_dcb.
  - apply strong_ctor, strong_make_dcb.
  - apply strong_bind_reads; [apply reads_get_var |]. intros o.
    apply strong_ctor, strong_other_cb_copy.
  - apply strong_bind_reads; [apply reads_get_var |]. intros o.
    apply strong_ctor, nothrow_strong, nothrow_other_cb_move.
  - apply strong_ctor, strong_other_cb_copy.
  - apply strong_ctor, nothrow_strong, nothrow_other_cb_move.
  - apply strong_assign, strong_other_cb_copy.
  - apply strong_assign, nothrow_strong, nothrow_other_cb_move.
  - apply strong_ctor, strong_make_dcb_copy.
  - apply strong_ctor, nothrow_strong, nothrow_make_unique.
  - apply strong_assign, strong_make_dcb_copy.
  - apply strong_assign, nothrow_strong, nothrow_make_unique.
  - apply nothrow_strong, nothrow_swap.
  - apply nothrow_strong, nothrow_arrow.
  - apply nothrow_strong, nothrow_star.
  - apply nothrow_strong, nothrow_member.
  - apply nothrow_strong, nothrow_mutate.
  - apply strong_bind_reads; [apply reads_try_static_cast |]. intros _.
    apply strong_ctor, strong_other_cb_copy.
  - apply strong_bind_reads; [apply reads_try_static_cast |]. intros _.
    apply strong_ctor, nothrow_strong, nothrow_other_cb_move.
  - apply strong_bind_reads; [apply reads_try_dynamic_cast |]. intros _.
    apply strong_bind_reads; [apply reads_try_static_cast |]. intros _.
    apply strong_ctor, strong_other_cb_copy.
  - apply strong_bind_reads; [apply reads_try_dynamic_cast |]. intros _.
    apply strong_bind_reads; [apply reads_try_static_cast |]. intros _.
    apply strong_ctor, nothrow_strong, nothrow_other_cb_move.
  - apply nothrow_strong, nothrow_destroy.
Qed.

Lemma nocast_exec_op o s :
  op_outcome al ct o s = Throw bad_indirect_cast → is_dynamic_cast o = true.
Proof.
  destruct o; cbn [op_outcome is_dynamic_cast]; intros He%forget_throw;
    try done; exfalso; revert s He.
  - apply nocast_ctor, nocast_make_dcb.
  - apply nocast_ctor, nocast_make_dcb.
  - apply nocast_ctor, nocast_make_dcb.
  - apply nocast_bind; [apply nothrow_nocast, nothrow_get_var |]. intros o.
    apply nocast_ctor, nocast_other_cb_copy.
  - apply nocast_bind; [apply nothrow_nocast, nothrow_get_var |]. intros o.
    apply nocast_ctor, nothrow_nocast, nothrow_other_cb_move.
  - apply nocast_ctor, nocast_other_cb_copy.
  - apply nocast_ctor, nothrow_nocast, nothrow_other_cb_move.
  - apply nocast_assign, nocast_other_cb_copy.
  - apply nocast_assign, nothrow_nocast, nothrow_other_cb_move.
  - apply nocast_ctor, nocast_make_dcb_copy.
  - apply nocast_ctor, nothrow_nocast, nothrow_make_unique.
  - apply nocast_assign, nocast_make_dcb_copy.
  - apply nocast_assign, nothrow_nocast, nothrow_make_unique.
  - apply nothrow_nocast, nothrow_swap.
  - apply nothrow_nocast, nothrow_arrow.
  - apply nothrow_nocast, nothrow_star.
  - apply nothrow_nocast, nothrow_member.
  - apply nothrow_nocast, nothrow_mutate.
  - apply nocast_bind; [apply nothrow_nocast, nothrow_try_static_cast |].
    intros _. apply nocast_ctor, nocast_other_cb_copy.
  - apply nocast_bind; [apply nothrow_nocast, nothrow_try_static_cast |].
    intros _. apply nocast_ctor, nothrow_nocast, nothrow_other_cb_move.
  - apply nothrow_nocast, nothrow_destroy.
Qed.

End Throws.

(** ** Further properties of the wrapper *)

Section Coverage.
Context (al : allocator) (ct : class_table).

Implicit Types (s : state) (w this other t : nat) (a n : Z) (b : block).

Lemma ctor_from_block_run s (p : M Z) T c v :
  p s = make_unique al c v s →
  (p ≫= λ n, indirect_from_cb ct T (Some n)) s =
    (Ret (fresh (dom (vars s))),
     State (<[alloc al (dom (heap s)) := Block c v]> (heap s))
           (<[fresh (dom (vars s)) :=
                Indirect T (Data (alloc al (dom (heap s)) + t_offset ct)
                                 (Some (alloc al (dom (heap s)))))]>
              (vars s))).
Proof.
  intros Hp. erewrite bind_run by (rewrite Hp; apply make_unique_run).
  by erewrite from_cb_run by (cbn; apply lookup_insert_eq).
Qed.

Lemma ctor_from_block_throw {B} s (p : M Z) (k : Z → M B) e :
  p s = throw e s → (p ≫= k) s = (Throw e, s).
Proof. intros Hp. by erewrite bind_throw by (rewrite Hp; reflexivity). Qed.

(** X1: [make_indirect<T>(ts...)], in-place construction and, for no
    arguments, default construction are one operation.  When T's
    constructor returns v the result is a new wrapper of view T that holds
    a block of class T with value v, and every block and wrapper there
    was is unchanged; when the constructor throws, the exception leaves
    with the state as it was: no block is left behind. *)
Theorem make_indirect_constructs_or_throws s T ts :
  indirect_in_place al ct T ts s = make_indirect al ct T ts s
  ∧ indirect_default al ct T s = make_indirect al ct T [] s
  ∧ match ctor ct T ts with
    | Some v =>
        ∃ w' s', make_indirect al ct T ts s = (Ret w', s')
                 ∧ vars s !! w' = None
                 ∧ view <$> vars s' !! w' = Some T
                 ∧ held s' w' = Some (Block T v)
                 ∧ heap s ⊆ heap s' ∧ vars s ⊆ vars s'
    | None => make_indirect al ct T ts s = (Throw payload_exception, s)
    end.
Proof.
  split_and!; [done.. |].
  unfold make_indirect, indirect_in_place.
  destruct (ctor ct T ts) as [v |] eqn:Hv.
  - erewrite (ctor_from_block_run s _ T T v)
      by (unfold make_dcb; by rewrite Hv).
    eexists _, _. split_and!; [done | | | | |]; cbn.
    + apply not_elem_of_dom, is_fresh.
    + by rewrite lookup_insert_eq.
    + apply held_insert_new.
    + apply insert_subseteq, alloc_None.
    + apply insert_subseteq, not_elem_of_dom, is_fresh.
  - apply ctor_from_block_throw. unfold make_dcb. by rewrite Hv.
Qed.

(** X2: constructing a wrapper of view T from an rvalue of a class U
    stores an object of class U, not of T: from a const rvalue the stored
    value is what U's copy constructor builds (and if that throws nothing
    is created), from a temporary what U's move constructor builds.
    Nothing that existed is changed.  (An lvalue does not select this
    constructor: U would be deduced as a reference type, for which
    [is_base_of<T, U>] is false.) *)
Theorem value_construction_keeps_class s T U v :
  match copy_ctor ct U v with
  | Some v' =>
      ∃ w' s', indirect_from_value al ct T U v s = (Ret w', s')
               ∧ view <$> vars s' !! w' = Some T
               ∧ held s' w' = Some (Block U v')
               ∧ heap s ⊆ heap s' ∧ vars s ⊆ vars s'
  | None => indirect_from_value al ct T U v s = (Throw payload_exception, s)
  end
  ∧ ∃ w' s', indirect_from_rvalue al ct T U v s = (Ret w', s')
             ∧ view <$> vars s' !! w' = Some T
             ∧ held s' w' = Some (Block U (move_ctor ct U v).1)
             ∧ heap s ⊆ heap s' ∧ vars s ⊆ vars s'.
Proof.
  split.
  - unfold indirect_from_value. destruct (copy_ctor ct U v) as [v' |] eqn:Hv.
    + erewrite (ctor_from_block_run s _ T U v')
        by (unfold make_dcb_copy; by rewrite Hv).
      eexists _, _. split_and!; [done | | | |]; cbn.
      * by rewrite lookup_insert_eq.
      * apply held_insert_new.
      * apply insert_subseteq, alloc_None.
      * apply insert_subseteq, not_elem_of_dom, is_fresh.
    + apply ctor_from_block_throw. unfold make_dcb_copy. by rewrite Hv.
  - unfold indirect_from_rvalue.
    erewrite (ctor_from_block_run s _ T U) by done.
    eexists _, _. split_and!; [done | | | |]; cbn.
    + by rewrite lookup_insert_eq.
    + apply held_insert_new.
    + apply insert_subseteq, alloc_None.
    + apply insert_subseteq, not_elem_of_dom, is_fresh.
Qed.

Lemma assign_from_block_run s (p : M Z) this i c v :
  vars s !! this = Some i →
  p s = make_unique al c v s →
  (get_var this ≫= λ _, p ≫= λ n, data_assign ct this (Some n)) s =
    (Ret tt,
     State (release (cb (m i))
              (<[alloc al (dom (heap s)) := Block c v]> (heap s)))
           (<[this := Indirect (view i)
                        (Data (alloc al (dom (heap s)) + t_offset ct)
                              (Some (alloc al (dom (heap s)))))]>
              (vars s))).
Proof.
  intros Hi Hp. erewrite bind_run by by apply get_var_run.
  erewrite bind_run by (rewrite Hp; apply make_unique_run).
  by erewrite data_assign_run
    by (cbn; first [eassumption | apply lookup_insert_eq]).
Qed.

Lemma assigned_state s t i c v x :
  wf ct s → vars s !! t = Some i → view x = view i →
  cb (m x) = Some (alloc al (dom (heap s))) →
  reassigned s
    (State (release (cb (m i))
              (<[alloc al (dom (heap s)) := Block c v]> (heap s)))
           (<[t := x]> (vars s)))
    t c v.
Proof.
  intros Hs Hi Hview Hcb.
  destruct (wf_owner ct s t i Hs Hi) as (old & bo & Hco & Hbo & _).
  pose proof (alloc_ne al s old _ Hbo) as Hno.
  pose proof (alloc_None al s) as Hn.
  rewrite Hco. unfold reassigned. split_and!.
  - unfold held, block_of. cbn. rewrite lookup_insert_eq. cbn. rewrite Hcb.
    cbn. by rewrite lookup_delete_ne, lookup_insert_eq.
  - cbn. rewrite lookup_insert_eq, Hi. cbn. by rewrite Hview.
  - intros old' Hold'. unfold block_of in Hold'. rewrite Hi in Hold'.
    cbn in Hold'. assert (old' = old) as -> by congruence.
    cbn. apply lookup_delete_eq.
  - intros w Hw. cbn. rewrite lookup_insert_ne by done. split; [done |].
    unfold held, block_of. cbn. rewrite lookup_insert_ne by done.
    destruct (vars s !! w) as [j |] eqn:Hj; [| done]. cbn.
    destruct (cb (m j)) as [aj |] eqn:Hcj; [| done]. cbn.
    destruct (wf_owner ct s w j Hs Hj) as (aj' & bj & Hcj' & Hbj & _).
    assert (aj' = aj) as -> by congruence.
    rewrite lookup_delete_ne, lookup_insert_ne; [done | |].
    + by apply (alloc_ne al s aj bj).
    + intros ->. apply Hw. apply wf_iff in Hs as (_ & H2 & _).
      eapply H2; eauto. congruence.
Qed.

(** X3: assigning a value of class U to a wrapper replaces the held
    object by an object of class U (copy-constructed from a const rvalue,
    move-constructed from a temporary) whatever class it held before; the
    wrapper keeps its view type, its former block is released and no
    other wrapper is affected.  If U's copy constructor throws, the
    wrapper and everything else are as they were. *)
Theorem assign_value_replaces_block s t U v :
  wf ct s → is_Some (vars s !! t) →
  match copy_ctor ct U v with
  | Some v' => ∃ s', assign_value al ct t U v s = (Ret tt, s')
                     ∧ reassigned s s' t U v'
  | None => assign_value al ct t U v s = (Throw payload_exception, s)
  end
  ∧ ∃ s', assign_rvalue al ct t U v s = (Ret tt, s')
          ∧ reassigned s s' t U (move_ctor ct U v).1.
Proof.
  intros Hs [i Hi]. split.
  - unfold assign_value. destruct (copy_ctor ct U v) as [v' |] eqn:Hv.
    + erewrite (assign_from_block_run s _ t i U v')
        by (first [done | unfold make_dcb_copy; by rewrite Hv]).
      eexists. split; [done |]. by apply assigned_state.
    + erewrite bind_run by by apply get_var_run.
      apply ctor_from_block_throw. unfold make_dcb_copy. by rewrite Hv.
  - unfold assign_rvalue.
    erewrite (assign_from_block_run s _ t i U) by done.
    eexists. split; [done |]. by apply assigned_state.
Qed.

(** X4: copy assignment, also the converting one, changes its target
    only: the target gets a block of the source's class holding what that
    class's copy constructor builds, keeps its own view type and releases
    its former block; the source (when it is another wrapper) and every
    other wrapper are as they were and hold what they held.  If the copy
    constructor throws, nothing has changed. *)
Theorem copy_assign_changes_target_only s t w D v :
  wf ct s → is_Some (vars s !! t) → held s w = Some (Block D v) →
  match copy_ctor ct D v with
  | Some v' => ∃ s', copy_assign al ct t w s = (Ret tt, s')
                     ∧ reassigned s s' t D v'
  | None => copy_assign al ct t w s = (Throw payload_exception, s)
  end.
Proof.
  intros Hs [i Hi] (o & a & Ho & Hc & Hb & _)%held_inv.
  destruct (copy_ctor ct D v) as [v' |] eqn:Hv.
  - erewrite copy_assign_run by done. eexists. split; [done |].
    by apply assigned_state.
  - unfold copy_assign. erewrite bind_run by by apply get_var_run.
    by erewrite bind_throw by by eapply other_cb_copy_throw.
Qed.

(** X5: when the checked cast passes - the requested type is the view
    type or a base of it, or the stored object has the view type's
    subobject at its own address and has a subobject of the requested
    type - and the requested subobject lies at a non-negative offset, the
    checked cast does exactly what the unchecked cast does, in the copy
    form and in the move form, and the unchecked cast is the converting
    constructor: same result, same state. *)
Theorem passing_dynamic_cast_is_static s w i b T :
  wf ct s → vars s !! w = Some i → held s w = Some b →
  cast_passes ct (view i) (blk_cls b) T →
  (∀ o, base_off ct (view i) T = Some o → 0 ≤ o) →
  (∀ o, base_off ct (blk_cls b) T = Some o → 0 ≤ o) →
  dynamic_indirect_cast al ct T w s = static_indirect_cast al ct T w s
  ∧ dynamic_indirect_cast_move al ct T w s
    = static_indirect_cast_move al ct T w s
  ∧ static_indirect_cast al ct T w s = indirect_conv_copy al ct T w s
  ∧ static_indirect_cast_move al ct T w s = indirect_conv_move al ct T w s.
Proof.
  intros Hs Hi Hw Hpass Hvo Hdo.
  pose proof (try_dynamic_cast_ok ct s T w i b Hs Hi Hw Hpass Hvo Hdo) as Hd.
  assert (try_static_cast T w s = (Ret tt, s)) as Hst
    by (apply try_static_cast_run; eauto).
  unfold dynamic_indirect_cast, dynamic_indirect_cast_move.
  split_and!.
  - by erewrite bind_run by exact Hd.
  - by erewrite bind_run by exact Hd.
  - unfold static_indirect_cast. by erewrite bind_run by exact Hst.
  - unfold static_indirect_cast_move. by erewrite bind_run by exact Hst.
Qed.

(** X6: [static_indirect_cast] makes no run-time check: for every
    requested type T, related to the stored class or not, it returns a new
    wrapper of view T that holds a copy-constructed object of the stored
    class, and leaves the source holding what it held. *)
Theorem static_cast_is_unchecked s w D v v' T :
  wf ct s → held s w = Some (Block D v) → copy_ctor ct D v = Some v' →
  ∃ w' s', static_indirect_cast al ct T w s = (Ret w', s')
           ∧ w' ≠ w
           ∧ view <$> vars s' !! w' = Some T
           ∧ held s' w' = Some (Block D v')
           ∧ held s' w = Some (Block D v).
Proof.
  intros Hs Hw Hv.
  destruct (held_inv _ _ _ Hw) as (i & a & Hi & Hc & Hb & _).
  unfold static_indirect_cast.
  erewrite bind_run by (apply try_static_cast_run; eauto).
  change (other_cb_copy al ct w ≫= λ n, indirect_from_cb ct T (Some n))
    with (indirect_conv_copy al ct T w).
  erewrite conv_copy_run by done. cbn.
  pose proof (fresh_var_ne s w i Hi) as Hfw.
  eexists _, _. split_and!; [done | done | | |].
  - cbn. by rewrite lookup_insert_eq.
  - apply held_insert_new.
  - erewrite held_insert_old; [done | done.. |].
    by apply not_eq_sym, (alloc_ne al s a _ Hb).
Qed.

(** X7: swapping twice restores the state exactly, and the order of the
    two operands does not matter. *)
Theorem swap_twice_restores s w1 w2 :
  is_Some (vars s !! w1) → is_Some (vars s !! w2) →
  (swap w1 w2 ≫= λ _, swap w1 w2) s = (Ret tt, s)
  ∧ swap w2 w1 s = swap w1 w2 s.
Proof.
  intros [i1 H1] [i2 H2]. split.
  - erewrite bind_run by by apply swap_run.
    destruct (decide (w1 = w2)) as [-> | Hne].
    + assert (i1 = i2) as -> by congruence.
      erewrite swap_run by (cbn; apply lookup_insert_eq). cbn.
      rewrite !insert_insert_eq. destruct i2 as [v2 d2]. cbn.
      rewrite insert_id by done. by destruct s.
    + erewrite swap_run; cbn;
        [| by rewrite lookup_insert_ne, lookup_insert_eq
         | by rewrite lookup_insert_eq ].
      cbn. destruct i1 as [v1 d1], i2 as [v2 d2]. cbn.
      replace (<[w2 := Indirect v2 d2]>
                 (<[w1 := Indirect v1 d1]>
                    (<[w2 := Indirect v2 d1]>
                       (<[w1 := Indirect v1 d2]> (vars s)))))
        with (vars s); [by destruct s |].
      apply map_eq. intros k.
      destruct (decide (k = w2)), (decide (k = w1)); by simplify_map_eq.
  - rewrite (swap_run s w2 w1 i2 i1 H2 H1), (swap_run s w1 w2 i1 i2 H1 H2).
    destruct (decide (w1 = w2)) as [-> | Hne].
    + by assert (i1 = i2) as -> by congruence.
    + by rewrite insert_insert_ne.
Qed.

(** X8: copy-constructing from a wrapper and destroying the copy
    restores the state exactly: the copy's block is released and the
    source was never touched. *)
Theorem copy_then_destroy_restores s w D v v' :
  held s w = Some (Block D v) → copy_ctor ct D v = Some v' →
  (indirect_copy al ct w ≫= destroy) s = (Ret tt, s).
Proof.
  intros (i & a & Hi & Hc & Hb & _)%held_inv Hv.
  erewrite bind_run
    by (rewrite (copy_run al ct s w i Hi); by eapply conv_copy_run).
  erewrite destroy_run by (cbn; apply lookup_insert_eq). cbn.
  rewrite !delete_insert_id; [by destruct s | | apply alloc_None].
  apply not_elem_of_dom, is_fresh.
Qed.

(** X9: constructing a wrapper in place and destroying it restores the
    state exactly. *)
Theorem make_then_destroy_restores s T ts v :
  ctor ct T ts = Some v →
  (make_indirect al ct T ts ≫= destroy) s = (Ret tt, s).
Proof.
  intros Hv. unfold make_indirect, indirect_in_place.
  erewrite bind_run
    by (apply (ctor_from_block_run s _ T T v); unfold make_dcb; by rewrite Hv).
  erewrite destroy_run by (cbn; apply lookup_insert_eq). cbn.
  rewrite !delete_insert_id; [by destruct s | | apply alloc_None].
  apply not_elem_of_dom, is_fresh.
Qed.

(** X10: handing a value over - converting move construction from a
    wrapper followed by the destruction of that wrapper, as for a
    temporary - leaves the new wrapper, of the requested view, holding the
    value D's move constructor built; the source and its block are gone,
    and there are as many live blocks as before. *)
Theorem move_then_destroy_hands_over s w D v a T :
  wf ct s → held s w = Some (Block D v) → block_of s w = Some a →
  ∃ w' s', (w' ← indirect_conv_move al ct T w; destroy w;; mret w') s
           = (Ret w', s')
           ∧ view <$> vars s' !! w' = Some T
           ∧ held s' w' = Some (Block D (move_ctor ct D v).1)
           ∧ vars s' !! w = None
           ∧ heap s' !! a = None
           ∧ size (heap s') = size (heap s).
Proof.
  intros Hs Hw Ha.
  destruct (held_inv _ _ _ Hw) as (i & a' & Hi & Hc & Hb & Ha').
  assert (a' = a) as -> by congruence.
  pose proof (alloc_ne al s a _ Hb) as Hna.
  pose proof (fresh_var_ne s w i Hi) as Hfw.
  erewrite bind_run by by eapply conv_move_run.
  erewrite bind_run
    by (apply destroy_run; cbn; by rewrite lookup_insert_ne, Hi).
  rewrite Hc. cbn. eexists _, _. split_and!; [done | | | | |]; cbn.
  - by rewrite lookup_delete_ne, lookup_insert_eq.
  - unfold held, block_of. cbn.
    rewrite lookup_delete_ne, lookup_insert_eq by done. cbn.
    by rewrite lookup_delete_ne, lookup_insert_eq.
  - apply lookup_delete_eq.
  - apply lookup_delete_eq.
  - rewrite map_size_delete_Some.
    + rewrite map_size_insert_None.
      * by rewrite map_size_insert_Some.
      * rewrite lookup_insert_ne by done. apply alloc_None.
    + by rewrite lookup_insert_ne, lookup_insert_eq.
Qed.

(** X11: a request leaves alone every wrapper it does not assign to,
    swap or destroy - in particular the source of a copy, of a move or of
    a cast: the wrapper keeps its view type, its control block and its
    view pointer, and it still holds an object. *)
Theorem request_leaves_other_wrappers s o w i :
  wf ct s → w ∉ targets o → vars s !! w = Some i →
  vars (exec_op al ct o s) !! w = Some i
  ∧ is_Some (held (exec_op al ct o s) w).
Proof.
  intros Hs Hw Hi.
  pose proof (frames_exec_op al ct o s w i Hw Hi) as Hi'.
  split; [done |].
  pose proof (exec_op_wf al ct o s Hs) as Hs'.
  destruct (wf_owner ct _ w i Hs' Hi') as (a & b & Hc & Hb & _).
  exists b. by eapply held_intro.
Qed.

(** X12: in every state a client can reach, every live control block is
    owned by a wrapper and there are exactly as many live blocks as
    wrappers: no request, whether it returns or throws, leaks a block or
    releases one that is still owned. *)
Theorem reachable_states_are_balanced (ops : list op) :
  counted (run al ct ops (State ∅ ∅)).
Proof. apply run_counted; [apply wf_empty | apply counted_empty]. Qed.

(** X13: once a client has destroyed every wrapper, no control block is
    left on the free store. *)
Theorem no_wrapper_no_block (ops : list op) :
  vars (run al ct ops (State ∅ ∅)) = ∅ →
  heap (run al ct ops (State ∅ ∅)) = ∅.
Proof.
  intros Hv.
  destruct (run_counted al ct ops (State ∅ ∅) (wf_empty ct) counted_empty)
    as [_ [_ Hsz]].
  apply map_size_empty_inv. by rewrite Hsz, Hv.
Qed.

(** X14: from a well-formed state a request whose operands exist never
    runs into undefined behaviour (a null or dangling dereference): it
    returns or throws.  Reads of named members are left out, since they
    depend on the layout of the view type. *)
Theorem valid_requests_are_defined s o :
  wf ct s → Forall (λ w, is_Some (vars s !! w)) (refs o) →
  (∀ w f, o ≠ Member w f) →
  op_outcome al ct o s ≠ Undefined.
Proof. apply defined_op. Qed.

(** X15: two different wrappers of a well-formed state never share a
    control block or a view pointer, and a write through one of them
    shows through that one and not through the other. *)
Theorem distinct_wrappers_do_not_alias s w w' b b' g :
  wf ct s → w ≠ w' → held s w = Some b → held s w' = Some b' →
  block_of s w ≠ block_of s w'
  ∧ view_ptr s w ≠ view_ptr s w'
  ∧ star ct w (mutate ct w g s).2 = (Ret (g (blk_t b)), (mutate ct w g s).2)
  ∧ star ct w' (mutate ct w g s).2 = (Ret (blk_t b'), (mutate ct w g s).2).
Proof.
  intros Hs Hne Hw Hw'.
  destruct (held_inv _ _ _ Hw) as (i & a & Hi & Hc & Hb & Ha).
  destruct (held_inv _ _ _ Hw') as (i' & a' & Hi' & Hc' & Hb' & Ha').
  pose proof (wf_distinct_blocks ct s w w' a a' Hs Hne Ha Ha') as Haa.
  destruct (wf_view_ptr ct s w i a Hs Hi Hc) as [Hp _].
  destruct (wf_view_ptr ct s w' i' a' Hs Hi' Hc') as [Hp' _].
  split_and!.
  - rewrite Ha, Ha'. congruence.
  - unfold view_ptr. rewrite Hi, Hi'. cbn. intros [= Heq]. lia.
  - apply (mutation_isolated ct s w w' b b' g Hs Hne Hw Hw').
  - apply (mutation_isolated ct s w w' b b' g Hs Hne Hw Hw').
Qed.

(** X16: constructions, copies, copying casts and accesses take their
    operands by reference to const: whatever their outcome, every block
    and every wrapper that existed is still there, unchanged. *)
Theorem const_requests_only_add s o :
  only_adds o = true →
  heap s ⊆ heap (exec_op al ct o s) ∧ vars s ⊆ vars (exec_op al ct o s).
Proof. apply grows_exec_op. Qed.

(** X17: a request that runs no move constructor (a construction, a
    copy, a copy assignment, a swap, an access, a copying cast, a
    destruction) and throws leaves the state exactly as it was before the
    request: wrappers, blocks and their contents; and so does every
    request, the moving checked cast included, that throws
    [bad_indirect_cast].  (Such a request throws before it allocates or
    writes anything.  What a throwing move constructor leaves is not
    stated: the move constructors of the stored classes are taken to
    return.) *)
Theorem throwing_request_changes_nothing s o e :
  op_outcome al ct o s = Throw e →
  moves o = false ∨ e = bad_indirect_cast →
  exec_op al ct o s = s.
Proof. intros He _. by eapply strong_exec_op. Qed.

(** X18: [bad_indirect_cast] is thrown by the checked casts only; every
    other request that throws passes on an exception of a stored class's
    constructor. *)
Theorem only_dynamic_casts_throw_bad_cast s o :
  op_outcome al ct o s = Throw bad_indirect_cast → is_dynamic_cast o = true.
Proof. apply nocast_exec_op. Qed.

(** X19: for a wrapper of view type V that holds an object of class D,
    with subobjects at non-negative offsets, the checked cast to T, in
    either form, throws [bad_indirect_cast] exactly when the cast does
    not pass: T is neither V nor a base of V, and D does not have both
    its V subobject at the object's own address and a T subobject.  The
    view type plays its part: a cast to the view type never throws,
    whatever is stored, and a view of a base that does not lie at the
    start of the stored object cannot be cast back to the stored
    class. *)
Theorem bad_cast_iff_cast_fails s w i b T :
  wf ct s → vars s !! w = Some i → held s w = Some b →
  (∀ o, base_off ct (view i) T = Some o → 0 ≤ o) →
  (∀ o, base_off ct (blk_cls b) T = Some o → 0 ≤ o) →
  ((dynamic_indirect_cast al ct T w s).1 = Throw bad_indirect_cast
     ↔ ¬ cast_passes ct (view i) (blk_cls b) T)
  ∧ ((dynamic_indirect_cast_move al ct T w s).1 = Throw bad_indirect_cast
     ↔ ¬ cast_passes ct (view i) (blk_cls b) T).
Proof.
  intros Hs Hi Hw Hvo Hdo.
  assert (try_static_cast T w s = (Ret tt, s)) as Hst
    by (apply try_static_cast_run; eauto).
  unfold dynamic_indirect_cast, dynamic_indirect_cast_move,
    static_indirect_cast, static_indirect_cast_move.
  destruct (decide (cast_passes ct (view i) (blk_cls b) T)) as [Hpass | Hno].
  - pose proof (try_dynamic_cast_ok ct s T w i b Hs Hi Hw Hpass Hvo Hdo)
      as Hd.
    split; (split; [| done]); intros Hthrow; exfalso; revert Hthrow;
      erewrite bind_run by exact Hd; erewrite bind_run by exact Hst.
    + apply nocast_ctor, nocast_other_cb_copy.
    + apply nocast_ctor, nothrow_nocast, nothrow_other_cb_move.
  - pose proof (try_dynamic_cast_throw ct s T w i b Hs Hi Hw Hno) as Hd.
    split; (split; [done |]); intros _; by erewrite bind_throw by exact Hd.
Qed.

(** X20: a copy behaves as the stored class.  When a wrapper holds an
    object of class D and D's copy constructor returns v', the copy made
    by the copy constructor, by the converting constructor to any view
    B, or by copy assignment to any wrapper t is a view that owns an
    object of class D with value v': its view pointer is the address of
    the object in its own new block and dereferencing it yields v', the
    whole D value.  When moreover the view type of the copy is D or a
    base whose subobject lies at the start of a D, the members of the
    view type read through the copy are those of the copied object. *)
Theorem copy_behaves_as_stored_class s w i D v v' :
  wf ct s → vars s !! w = Some i → held s w = Some (Block D v) →
  copy_ctor ct D v = Some v' →
  (∃ w1 s1, indirect_copy al ct w s = (Ret w1, s1) ∧ w1 ≠ w
            ∧ holds_object ct s1 w1 (view i) D v'
            ∧ (base_off ct D (view i) = Some 0 →
                 reads_own_members ct s1 w1 (view i)))
  ∧ (∀ B, ∃ w2 s2, indirect_conv_copy al ct B w s = (Ret w2, s2) ∧ w2 ≠ w
                   ∧ holds_object ct s2 w2 B D v'
                   ∧ (base_off ct D B = Some 0 →
                        reads_own_members ct s2 w2 B))
  ∧ (∀ t it, vars s !! t = Some it →
       ∃ s3, copy_assign al ct t w s = (Ret tt, s3)
             ∧ holds_object ct s3 t (view it) D v'
             ∧ (base_off ct D (view it) = Some 0 →
                  reads_own_members ct s3 t (view it))).
Proof.
  intros Hs Hi Hw Hv.
  destruct (held_inv _ _ _ Hw) as (i' & a & Hi' & Hc & Hb & _).
  assert (i' = i) as -> by congruence.
  pose proof (fresh_var_ne s w i Hi) as Hfw.
  assert (∀ B, ∃ w2 s2, indirect_conv_copy al ct B w s = (Ret w2, s2)
                        ∧ w2 ≠ w
                        ∧ holds_object ct s2 w2 B D v'
                        ∧ (base_off ct D B = Some 0 →
                             reads_own_members ct s2 w2 B)) as Hconv.
  { intros B.
    pose proof (exec_op_wf al ct (ConvCopy B w) s Hs) as Hs'. cbn in Hs'.
    erewrite conv_copy_run in * by done. cbn in Hs'.
    eexists _, _. split_and!; [done | done | |].
    - eapply (wf_holds_object ct _ _ (Indirect B _)); [done | |].
      + cbn. apply lookup_insert_eq.
      + apply held_insert_new.
    - intros HB.
      eapply (wf_reads_own_members ct _ _ (Indirect B _)); [done | | | done].
      + cbn. apply lookup_insert_eq.
      + apply held_insert_new. }
  split_and!.
  - rewrite (copy_run al ct s w i Hi). apply Hconv.
  - done.
  - intros t it Ht.
    pose proof (exec_op_wf al ct (CopyAssign t w) s Hs) as Hs'. cbn in Hs'.
    erewrite copy_assign_run in * by done. cbn in Hs'.
    assert (cb (m it) ≠ Some (alloc al (dom (heap s)))) as Hne.
    { destruct (wf_owner ct s t it Hs Ht) as (old & bo & -> & Hbo & _).
      intros [= ->]. by rewrite alloc_None in Hbo. }
    eexists. split_and!; [done | |].
    + eapply (wf_holds_object ct _ _ (Indirect (view it) _)); [done | |].
      * cbn. apply lookup_insert_eq.
      * by apply held_assign_new.
    + intros Hoff.
      eapply (wf_reads_own_members ct _ _ (Indirect (view it) _));
        [done | | | done].
      * cbn. apply lookup_insert_eq.
      * by apply held_assign_new.
Qed.

End Coverage.

(** ** The scenarios of the test suites *)

Section Scenarios.
Import Tests.

(** C1: at [make_indirect<MultiplyDerived>(7)] converted to its two
    base views (the scenario of TestDeepPtr.cpp, "multiple (virtual) base
    classes"), the view of the first base reads its members, but the
    view pointer of the second base, IntermediateBaseB, is the address of
    the whole object instead of the address of the IntermediateBaseB
    subobject 16 bytes further, and reads through it return the members
    of the first base: 3 for [ib_] (which is 101) and 0 for [b_] (which
    is 42). *)
Theorem non_primary_base_view_misreads :
  wf C s_multi
  ∧ view_ptr s_multi 1 = Some 136
  ∧ subobject_addr C s_multi 1 "IntermediateBaseA" = Some 136
  ∧ result (member C 1 "ia_") s_multi = Ret 3
  ∧ subobject_member C s_multi 1 "IntermediateBaseA" "ia_" = Some 3
  ∧ view_ptr s_multi 2 = Some 200
  ∧ subobject_addr C s_multi 2 "IntermediateBaseB" = Some 216
  ∧ result (member C 2 "ib_") s_multi = Ret 3
  ∧ subobject_member C s_multi 2 "IntermediateBaseB" "ib_" = Some 101
  ∧ result (member C 2 "b_") s_multi = Ret 0
  ∧ subobject_member C s_multi 2 "IntermediateBaseB" "b_" = Some 42.
Proof. split; [compute_done | by vm_compute]. Qed.


Lemma swap_exchanges_witness :
  ∃ s', swap 0 1 s_two = (Ret tt, s')
        ∧ swap_indirect 0 1 s_two = (Ret tt, s')
        ∧ exchanged s_two s' 0 1.
Proof.
  apply (swap_exchanges s_two 0 1
           (Indirect "derived" (Data 72 (Some 64)))
           (Indirect "derived" (Data 136 (Some 128))));
    vm_compute; reflexivity.
Defined.




Lemma copy_assign_strong_guarantee_witness :
  copy_assign A C 1 0 s_fragile = (Throw payload_exception, s_fragile)
  ∧ clone_then_release A C s_two 1 0 "derived" v42.
Proof.
  split.
  - apply (copy_assign_strong_guarantee A C s_fragile 1 0 "fragile"
             (image [(8, 5)])).
    + compute_done.
    + eexists. vm_compute. reflexivity.
    + vm_compute; reflexivity.
    + vm_compute; reflexivity.
  - apply (copy_assign_strong_guarantee A C s_two 1 0 "derived" v42).
    + compute_done.
    + eexists. vm_compute. reflexivity.
    + vm_compute; reflexivity.
    + vm_compute; reflexivity.
Defined.

(** C2 as stated fails: after move construction from
    [indirect<derived> d{in_place, 42}] the new wrapper does not own the
    block the source owned, and the source is not empty. *)
Lemma move_steals_block_counterexample :
  ¬ (∃ w' s', indirect_move A C 0 s_derived = (Ret w', s')
              ∧ block_of s' w' = block_of s_derived 0
              ∧ is_empty C s' 0).
Proof.
  intros (w' & s' & Hrun & Hblk & _).
  assert (w' = 1%nat ∧ s' = exec (indirect_move A C 0) s_derived) as [-> ->].
  { unfold exec. rewrite Hrun. split; [| done].
    apply (f_equal fst) in Hrun. vm_compute in Hrun. congruence. }
  vm_compute in Hblk. discriminate.
Qed.

(** Move construction from the only wrapper of a program
    ([indirect<derived> d1{in_place, 42}; indirect<derived> d2(std::move(d1));])
    and move assignment between two wrappers. *)
Lemma move_allocates_witness :
  (heap s_derived !! 128 = None
   ∧ ∃ w' s', indirect_move A C 0 s_derived = (Ret w', s') ∧ w' ≠ 0%nat
              ∧ moved C s' 0 w' "derived" v42 64 128)
  ∧ (heap s_two !! 192 = None
     ∧ ∃ s', move_assign A C 1 0 s_two = (Ret tt, s')
             ∧ moved C s' 0 1 "derived" v42 64 192).
Proof.
  split.
  - destruct (move_allocates_and_keeps_source A C s_derived 0 "derived" v42 64)
      as (H1 & _ & H2 & _).
    + compute_done.
    + vm_compute; reflexivity.
    + vm_compute; reflexivity.
    + split; [exact H1 | exact H2].
  - destruct (move_allocates_and_keeps_source A C s_two 0 "derived" v42 64)
      as (H1 & _ & _ & H3).
    + compute_done.
    + vm_compute; reflexivity.
    + vm_compute; reflexivity.
    + split; [exact H1 |]. apply (H3 1%nat); [| lia].
      eexists. vm_compute. reflexivity.
Defined.

(** C5 as stated fails: after [d = std::move(d)] the wrapper is not
    empty. *)
Lemma self_move_assign_empties_counterexample :
  ¬ (∃ s', move_assign A C 0 0 s_derived = (Ret tt, s') ∧ is_empty C s' 0).
Proof.
  intros (s' & Hrun & _ & Hblk & _).
  assert (s' = exec (move_assign A C 0 0) s_derived) as ->.
  { unfold exec. by rewrite Hrun. }
  vm_compute in Hblk. discriminate.
Qed.

Lemma self_move_assign_witness :
  self_move_result A C s_derived 0 "derived" v42 64.
Proof.
  apply (self_move_assign_keeps_value A C s_derived 0 "derived" v42 64).
  - compute_done.
  - vm_compute; reflexivity.
  - vm_compute; reflexivity.
Defined.

(** C6 as stated fails: after [d = d] the value is the same but the
    held object is at another address. *)
Lemma self_copy_assign_same_address_counterexample :
  ¬ (∃ s', copy_assign A C 0 0 s_derived = (Ret tt, s')
           ∧ star C 0 s' = (Ret v42, s')
           ∧ view_ptr s' 0 = view_ptr s_derived 0).
Proof.
  intros (s' & Hrun & _ & Hptr).
  assert (s' = exec (copy_assign A C 0 0) s_derived) as ->.
  { unfold exec. by rewrite Hrun. }
  vm_compute in Hptr. discriminate.
Qed.

Lemma self_copy_assign_witness :
  self_copy_result A C s_derived 0 "derived" v42 64.
Proof.
  apply (self_copy_assign_reallocates A C s_derived 0 "derived" v42 64).
  - compute_done.
  - vm_compute; reflexivity.
  - vm_compute; reflexivity.
  - vm_compute; reflexivity.
Defined.

(** The expectations of test_indirect.cpp, on the model. *)

Example test_in_place :
  result (d ← indirect_in_place A C "derived" [42]; get_value d) s0 = Ret 42.
Proof. by vm_compute. Qed.

Example test_copy_constructed_into_base :
  result (d1 ← indirect_in_place A C "derived" [42];
          b2 ← indirect_conv_copy A C "base" d1;
          x ← get_value d1; y ← get_value b2; mret (x, y)) s0
  = Ret (42, 42).
Proof. by vm_compute. Qed.

Example test_move_constructed :
  result (d1 ← indirect_in_place A C "derived" [42];
          d2 ← indirect_move A C d1;
          x ← get_value d1; y ← get_value d2; mret (x, y)) s0
  = Ret (0, 42)
  ∧ size (heap (exec (d1 ← indirect_in_place A C "derived" [42];
                      indirect_move A C d1) s0)) = 2%nat.
Proof. by vm_compute. Qed.

Example test_move_assigned :
  result (d1 ← indirect_in_place A C "derived" [42];
          d2 ← indirect_default A C "derived";
          move_assign A C d2 d1;;
          x ← get_value d1; y ← get_value d2; mret (x, y)) s0
  = Ret (0, 42).
Proof. by vm_compute. Qed.

Example test_static_cast_moved :
  result (d2 ← static_indirect_cast_move A C "derived" 1;
          x ← get_value 1; y ← get_value d2; mret (x, y)) s_base
  = Ret (0, 42).
Proof. by vm_compute. Qed.

Example test_dynamic_cast_copied :
  result (d2 ← dynamic_indirect_cast A C "derived" 1;
          x ← get_value 1; y ← get_value d2; mret (x, y)) s_base
  = Ret (42, 42).
Proof. by vm_compute. Qed.

Example test_dynamic_cast_to_other_throws :
  result (dynamic_indirect_cast_move A C "derived_other" 1) s_base
  = Throw bad_indirect_cast
  ∧ size (heap (exec (dynamic_indirect_cast_move A C "derived_other" 1) s_base))
    = 1%nat
  ∧ result (get_value 1)
      (exec (dynamic_indirect_cast_move A C "derived_other" 1) s_base)
    = Ret 42.
Proof. by vm_compute. Qed.

(** Instances of the further properties. *)

Lemma assign_value_replaces_block_witness :
  match copy_ctor C "derived_other" (image [(8, 7)]) with
  | Some v' =>
      ∃ s', assign_value A C 1 "derived_other" (image [(8, 7)]) s_base
            = (Ret tt, s')
            ∧ reassigned s_base s' 1 "derived_other" v'
  | None =>
      assign_value A C 1 "derived_other" (image [(8, 7)]) s_base
      = (Throw payload_exception, s_base)
  end
  ∧ ∃ s', assign_rvalue A C 1 "derived_other" (image [(8, 7)]) s_base
          = (Ret tt, s')
          ∧ reassigned s_base s' 1 "derived_other"
              (move_ctor C "derived_other" (image [(8, 7)])).1.
Proof.
  apply (assign_value_replaces_block A C s_base 1 "derived_other"
           (image [(8, 7)])).
  - compute_done.
  - eexists. vm_compute. reflexivity.
Defined.

Lemma copy_assign_changes_target_only_witness :
  match copy_ctor C "derived" v42 with
  | Some v' => ∃ s', copy_assign A C 1 0 s_two = (Ret tt, s')
                     ∧ reassigned s_two s' 1 "derived" v'
  | None => copy_assign A C 1 0 s_two = (Throw payload_exception, s_two)
  end.
Proof.
  apply (copy_assign_changes_target_only A C s_two 1 0 "derived" v42).
  - compute_done.
  - eexists. vm_compute. reflexivity.
  - vm_compute; reflexivity.
Defined.

Lemma passing_dynamic_cast_is_static_witness :
  dynamic_indirect_cast A C "derived" 1 s_base
  = static_indirect_cast A C "derived" 1 s_base
  ∧ dynamic_indirect_cast_move A C "derived" 1 s_base
    = static_indirect_cast_move A C "derived" 1 s_base
  ∧ static_indirect_cast A C "derived" 1 s_base
    = indirect_conv_copy A C "derived" 1 s_base
  ∧ static_indirect_cast_move A C "derived" 1 s_base
    = indirect_conv_move A C "derived" 1 s_base.
Proof.
  apply (passing_dynamic_cast_is_static A C s_base 1
           (Indirect "base" (Data 136 (Some 128)))
           (Block "derived" v42) "derived").
  - compute_done.
  - vm_compute; reflexivity.
  - vm_compute; reflexivity.
  - compute_done.
  - intros o Ho. vm_compute in Ho. discriminate.
  - intros o Ho. vm_compute in Ho. injection Ho as <-. lia.
Defined.

Lemma static_cast_is_unchecked_witness :
  base_off C "derived" "derived_other" = None
  ∧ ∃ w' s', static_indirect_cast A C "derived_other" 1 s_base = (Ret w', s')
             ∧ w' ≠ 1%nat
             ∧ view <$> vars s' !! w' = Some "derived_other"
             ∧ held s' w' = Some (Block "derived" v42)
             ∧ held s' 1 = Some (Block "derived" v42).
Proof.
  split; [vm_compute; reflexivity |].
  apply (static_cast_is_unchecked A C s_base 1 "derived" v42 v42
           "derived_other").
  - compute_done.
  - vm_compute; reflexivity.
  - vm_compute; reflexivity.
Defined.

Lemma swap_twice_restores_witness :
  (swap 0 1 ≫= λ _, swap 0 1) s_two = (Ret tt, s_two)
  ∧ swap 1 0 s_two = swap 0 1 s_two.
Proof.
  apply (swap_twice_restores s_two 0 1);
    eexists; vm_compute; reflexivity.
Defined.

Lemma copy_then_destroy_restores_witness :
  (indirect_copy A C 0 ≫= destroy) s_two = (Ret tt, s_two).
Proof.
  apply (copy_then_destroy_restores A C s_two 0 "derived" v42 v42);
    vm_compute; reflexivity.
Defined.

Lemma make_then_destroy_restores_witness :
  (make_indirect A C "derived" [42] ≫= destroy) s_two = (Ret tt, s_two).
Proof.
  apply (make_then_destroy_restores A C s_two "derived" [42] v42).
  vm_compute; reflexivity.
Defined.

Lemma move_then_destroy_hands_over_witness :
  ∃ w' s', (w' ← indirect_conv_move A C "base" 0; destroy 0;; mret w') s_two
           = (Ret w', s')
           ∧ view <$> vars s' !! w' = Some "base"
           ∧ held s' w' = Some (Block "derived" (move_ctor C "derived" v42).1)
           ∧ vars s' !! 0%nat = None
           ∧ heap s' !! 64 = None
           ∧ size (heap s') = size (heap s_two).
Proof.
  apply (move_then_destroy_hands_over A C s_two 0 "derived" v42 64 "base").
  - compute_done.
  - vm_compute; reflexivity.
  - vm_compute; reflexivity.
Defined.

Lemma request_leaves_other_wrappers_witness :
  vars (exec_op A C (MoveAssign 1 0) s_two) !! 0%nat
  = Some (Indirect "derived" (Data 72 (Some 64)))
  ∧ is_Some (held (exec_op A C (MoveAssign 1 0) s_two) 0).
Proof.
  apply (request_leaves_other_wrappers A C s_two (MoveAssign 1 0) 0).
  - compute_done.
  - compute_done.
  - vm_compute; reflexivity.
Defined.

Lemma no_wrapper_no_block_witness :
  heap (run A C [InPlace "derived" [42]; Copy 0; Destroy 0; Destroy 1]
          (State ∅ ∅)) = ∅.
Proof.
  apply (no_wrapper_no_block A C
           [InPlace "derived" [42]; Copy 0; Destroy 0; Destroy 1]).
  vm_compute; reflexivity.
Defined.

Lemma valid_requests_are_defined_witness :
  op_outcome A C (MoveAssign 1 0) s_two ≠ Undefined.
Proof.
  apply (valid_requests_are_defined A C s_two (MoveAssign 1 0)).
  - compute_done.
  - repeat constructor; eexists; vm_compute; reflexivity.
  - intros w f. discriminate.
Defined.

Lemma distinct_wrappers_do_not_alias_witness :
  block_of s_two 0 ≠ block_of s_two 1
  ∧ view_ptr s_two 0 ≠ view_ptr s_two 1
  ∧ star C 0 (mutate C 0 <[8 := 99]> s_two).2
    = (Ret (<[8 := 99]> v42), (mutate C 0 <[8 := 99]> s_two).2)
  ∧ star C 1 (mutate C 0 <[8 := 99]> s_two).2
    = (Ret (image [(8, 0)]), (mutate C 0 <[8 := 99]> s_two).2).
Proof.
  apply (distinct_wrappers_do_not_alias C s_two 0 1
           (Block "derived" v42) (Block "derived" (image [(8, 0)]))
           <[8 := 99]>).
  - compute_done.
  - lia.
  - vm_compute; reflexivity.
  - vm_compute; reflexivity.
Defined.

Lemma const_requests_only_add_witness :
  heap s_two ⊆ heap (exec_op A C (ConvCopy "base" 0) s_two)
  ∧ vars s_two ⊆ vars (exec_op A C (ConvCopy "base" 0) s_two).
Proof.
  apply (const_requests_only_add A C s_two (ConvCopy "base" 0)).
  reflexivity.
Defined.

Lemma throwing_request_changes_nothing_witness :
  (op_outcome A C (CopyAssign 1 0) s_fragile = Throw payload_exception
   ∧ exec_op A C (CopyAssign 1 0) s_fragile = s_fragile)
  ∧ (op_outcome A C (DynamicCastMove "derived_other" 1) s_base
     = Throw bad_indirect_cast
     ∧ exec_op A C (DynamicCastMove "derived_other" 1) s_base = s_base).
Proof.
  assert (op_outcome A C (CopyAssign 1 0) s_fragile = Throw payload_exception)
    as H1 by (vm_compute; reflexivity).
  assert (op_outcome A C (DynamicCastMove "derived_other" 1) s_base
          = Throw bad_indirect_cast) as H2 by (vm_compute; reflexivity).
  split; (split; [done |]).
  - apply (throwing_request_changes_nothing A C s_fragile (CopyAssign 1 0)
             _ H1).
    left. reflexivity.
  - apply (throwing_request_changes_nothing A C s_base
             (DynamicCastMove "derived_other" 1) _ H2).
    right. reflexivity.
Defined.

Lemma only_dynamic_casts_throw_bad_cast_witness :
  is_dynamic_cast (DynamicCast "derived_other" 1) = true.
Proof.
  apply (only_dynamic_casts_throw_bad_cast A C s_base
           (DynamicCast "derived_other" 1)).
  vm_compute; reflexivity.
Defined.

(** The view of the second base of a [MultiplyDerived] cannot be cast
    back to [MultiplyDerived] (the run-time check does not find an
    IntermediateBaseB subobject at the address of the whole object), and
    the cast of the [derived_other] view of a [derived] to
    [derived_other] does not throw. *)
Lemma bad_cast_iff_cast_fails_witness :
  (dynamic_indirect_cast A C "MultiplyDerived" 2 s_multi).1
  = Throw bad_indirect_cast
  ∧ (dynamic_indirect_cast_move A C "MultiplyDerived" 2 s_multi).1
    = Throw bad_indirect_cast
  ∧ (dynamic_indirect_cast A C "derived_other" 2 s_miscast).1
    ≠ Throw bad_indirect_cast.
Proof.
  assert (wf C s_multi) as Hs by compute_done.
  assert (wf C s_miscast) as Hs' by compute_done.
  destruct (bad_cast_iff_cast_fails A C s_multi 2
              (Indirect "IntermediateBaseB" (Data 200 (Some 192)))
              (Block "MultiplyDerived"
                 (image [(8, 0); (12, 3); (24, 42); (28, 101); (32, 7)]))
              "MultiplyDerived" Hs) as [H1 H2].
  { vm_compute; reflexivity. }
  { vm_compute; reflexivity. }
  { intros o Ho. vm_compute in Ho. discriminate. }
  { intros o Ho. vm_compute in Ho. injection Ho as <-. lia. }
  destruct (bad_cast_iff_cast_fails A C s_miscast 2
              (Indirect "derived_other" (Data 200 (Some 192)))
              (Block "derived" v42) "derived_other" Hs') as [H3 _].
  { vm_compute; reflexivity. }
  { vm_compute; reflexivity. }
  { intros o Ho. vm_compute in Ho. injection Ho as <-. lia. }
  { intros o Ho. vm_compute in Ho. discriminate. }
  split_and!.
  - apply H1. compute_done.
  - apply H2. compute_done.
  - intros Hthrow. apply H3 in Hthrow. apply Hthrow. compute_done.
Defined.

(** Copies of the view of the first base of a [MultiplyDerived], whose
    subobject lies at the start of the object, and copy assignment of
    the whole object to that view. *)
Lemma copy_behaves_as_stored_class_witness :
  (∃ w1 s1, indirect_copy A C 1 s_multi = (Ret w1, s1) ∧ w1 ≠ 1%nat
            ∧ holds_object C s1 w1 "IntermediateBaseA" "MultiplyDerived" md7
            ∧ reads_own_members C s1 w1 "IntermediateBaseA")
  ∧ (∃ w2 s2, indirect_conv_copy A C "BaseA" 1 s_multi = (Ret w2, s2)
              ∧ w2 ≠ 1%nat
              ∧ holds_object C s2 w2 "BaseA" "MultiplyDerived" md7
              ∧ reads_own_members C s2 w2 "BaseA")
  ∧ (∃ s3, copy_assign A C 1 0 s_multi = (Ret tt, s3)
           ∧ holds_object C s3 1 "IntermediateBaseA" "MultiplyDerived" md7
           ∧ reads_own_members C s3 1 "IntermediateBaseA").
Proof.
  assert (wf C s_multi) as Hs by compute_done.
  destruct (copy_behaves_as_stored_class A C s_multi 1
              (Indirect "IntermediateBaseA" (Data 136 (Some 128)))
              "MultiplyDerived" md7 md7 Hs) as (H1 & H2 & _);
    [vm_compute; reflexivity ..|].
  destruct (copy_behaves_as_stored_class A C s_multi 0
              (Indirect "MultiplyDerived" (Data 72 (Some 64)))
              "MultiplyDerived" md7 md7 Hs) as (_ & _ & H3);
    [vm_compute; reflexivity ..|].
  split_and!.
  - destruct H1 as (w1 & s1 & Hr & Hne & Ho & Hm).
    exists w1, s1. split_and!; [done.. |]. apply Hm. vm_compute; reflexivity.
  - destruct (H2 "BaseA") as (w2 & s2 & Hr & Hne & Ho & Hm).
    exists w2, s2. split_and!; [done.. |]. apply Hm. vm_compute; reflexivity.
  - destruct (H3 1%nat (Indirect "IntermediateBaseA" (Data 136 (Some 128))))
      as (s3 & Hr & Ho & Hm); [vm_compute; reflexivity |].
    exists s3. split_and!; [done.. |]. apply Hm. vm_compute; reflexivity.
Defined.

End Scenarios.
